(** * Line-girl-effect: image pipeline and streakline simulation

    A shallow embedding of [src/main.py]: the image loader
    ([load_image_data]), the brightness processor ([apply_image_effects]),
    the per-tick procedure ([animate]) and the interaction callbacks;
    and of the slider panel of [src/controls.py].

    Numbers.  The program computes on numpy [float64] arrays.  The
    definitions are written once, over an interface [Num] of the scalar
    operations the source uses, and are read at two instances:
    - [float_num]: IEEE-754 binary64 (Rocq's primitive floats), which has
      the special values of numpy (NaN, infinities, signed zeros);
    - [Q_num]: the rationals, exact arithmetic without rounding and without
      special values; no statement about this instance depends on the
      value of a quotient by zero.
    The transcendental functions of numpy ([np.exp], [np.sin], [np.cos])
    are parameters of both instances. *)

From Stdlib Require Import ZArith QArith Qround Floats List String Bool Lia Lqa.
From stdpp Require Import base option list gmap strings.

Set Default Proof Using "Type".
Local Open Scope Z_scope.

(** ** Exceptions *)

(** The Python exceptions that the modelled code can meet. *)
Inductive exn : Type :=
  | FileNotFoundError
  | AttributeError
  | IsADirectoryError
  | PermissionError
  | UnidentifiedImageError
  | IndexError
  | ZeroDivisionError.

(** A computation that returns a value or raises. *)
Definition result (A : Type) : Type := exn + A.

Definition ok {A} (a : A) : result A := inr a.
Definition raise {A} (e : exn) : result A := inl e.

Definition rbind {A B} (m : result A) (k : A -> result B) : result B :=
  match m with
  | inl e => inl e
  | inr a => k a
  end.

Notation "x <-- m ;; k" := (rbind m (fun x => k))
  (at level 100, m at next level, right associativity).

(** [for x in xs: ...] with a body that may raise: left to right, stops at
    the first exception. *)
Fixpoint rmapM {A B} (f : A -> result B) (xs : list A) : result (list B) :=
  match xs with
  | [] => ok []
  | x :: xs' => y <-- f x ;; ys <-- rmapM f xs' ;; ok (y :: ys)
  end.

(** ** Scalars *)

Class Num (F : Type) : Type := {
  of_Z : Z -> F;               (* an integer literal or int array entry, as a float *)
  add : F -> F -> F;
  sub : F -> F -> F;
  mul : F -> F -> F;
  div : F -> F -> F;           (* numpy true division: no exception on 0 *)
  neg : F -> F;
  ltb : F -> F -> bool;
  isnan : F -> bool;
  to_int : F -> Z;             (* astype(int): truncation toward zero *)
  np_exp : F -> F;
  np_sin : F -> F;
  np_cos : F -> F
}.

Declare Scope num_scope.
Delimit Scope num_scope with num.
Infix "+" := add : num_scope.
Infix "-" := sub : num_scope.
Infix "*" := mul : num_scope.
Infix "/" := div : num_scope.
Infix "<?" := ltb : num_scope.
Notation "- x" := (neg x) : num_scope.

(** *** binary64 *)

Definition float_of_Z (z : Z) : float :=
  if z <? 0 then PrimFloat.opp (PrimFloat.of_uint63 (Uint63.of_Z (- z)))
  else PrimFloat.of_uint63 (Uint63.of_Z z).

(** The C cast of a double to a 64-bit integer: truncation toward zero;
    NaN, the infinities and values out of range give the most negative
    integer (the x86-64 behaviour numpy inherits). *)
Definition float_to_int (x : float) : Z :=
  match Prim2SF x with
  | S754_zero _ => 0
  | S754_finite s m e =>
      let v := if 0 <=? e then Z.pos m * 2 ^ e else Z.pos m / 2 ^ (- e) in
      if v <? 2 ^ 63 then (if s then - v else v) else - 2 ^ 63
  | _ => - 2 ^ 63
  end.

Definition float_num (fexp fsin fcos : float -> float) : Num float := {|
  of_Z := float_of_Z;
  add := PrimFloat.add;
  sub := PrimFloat.sub;
  mul := PrimFloat.mul;
  div := PrimFloat.div;
  neg := PrimFloat.opp;
  ltb := PrimFloat.ltb;
  isnan := PrimFloat.is_nan;
  to_int := float_to_int;
  np_exp := fexp;
  np_sin := fsin;
  np_cos := fcos
|}.

(** *** Exact rationals *)

Definition Qltb (a b : Q) : bool := negb (Qle_bool b a).

Definition Qtrunc (q : Q) : Z := Z.quot (Qnum q) (Z.pos (Qden q)).

Definition Q_num (qexp qsin qcos : Q -> Q) : Num Q := {|
  of_Z := inject_Z;
  add := Qplus;
  sub := Qminus;
  mul := Qmult;
  div := Qdiv;
  neg := Qopp;
  ltb := Qltb;
  isnan := fun _ => false;
  to_int := Qtrunc;
  np_exp := qexp;
  np_sin := qsin;
  np_cos := qcos
|}.

(** ** numpy arrays, by value *)

Section Arrays.
Context {F : Type} {num : Num F}.
Local Open Scope num_scope.

(** [np.minimum] and [np.maximum]: the first argument wins when it is a
    NaN, so that NaNs propagate. *)
Definition minimum (a b : F) : F := if (a <? b) || isnan a then a else b.
Definition maximum (a b : F) : F := if (b <? a) || isnan a then a else b.

(** [np.clip(x, lo, hi)] *)
Definition clip (x lo hi : F) : F := minimum (maximum x lo) hi.

(** [a.sum()] *)
Definition np_sum (a : list F) : F := fold_left add a (of_Z 0).

(** [a.min()] and [a.max()] of a one-dimensional array (numpy raises on
    an empty one; the arrays of this program have CANVAS_SIZE >= 1
    entries per axis). *)
Definition amin (a : list F) : F :=
  match a with
  | [] => of_Z 0
  | x :: xs => fold_left minimum xs x
  end.

Definition amax (a : list F) : F :=
  match a with
  | [] => of_Z 0
  | x :: xs => fold_left maximum xs x
  end.

(** Two-dimensional arrays are lists of rows; a reduction without axis
    runs over the flattened array. *)
Definition map2d {A B} (f : A -> B) (m : list (list A)) : list (list B) :=
  map (map f) m.

Definition amin2d (m : list (list F)) : F := amin (concat m).
Definition amax2d (m : list (list F)) : F := amax (concat m).

Definition nrows {A} (m : list (list A)) : nat := length m.
Definition ncols {A} (m : list (list A)) : nat :=
  match m with
  | [] => O
  | r :: _ => length r
  end.

(** [np.flipud] *)
Definition flipud {A} (m : list (list A)) : list (list A) := rev m.

(** *** scipy.ndimage.gaussian_filter1d

    [mode='reflect'] extends the input by mirroring about the edge,
    duplicating the edge sample: (d c b a | a b c d | d c b a). *)
Definition reflect_index (n i : Z) : Z :=
  let m := i mod (2 * n) in
  if (m <? n)%Z then m else (2 * n - 1 - m)%Z.

Definition nth_reflect (input : list F) (i : Z) : F :=
  nth (Z.to_nat (reflect_index (Z.of_nat (length input)) i)) input (of_Z 0).

(** [_gaussian_kernel1d(sigma, 0, radius)] for [sigma > 0]:
    [x = arange(-radius, radius+1)],
    [phi_x = exp(-0.5 / sigma2 * x ** 2)], [phi_x / phi_x.sum()].
    (At [sigma = 0] the quotient [-0.5 / sigma2] is a division by zero in
    scipy; every statement below that depends on the filter takes
    [sigma > 0].) *)
Definition gaussian_kernel1d (sigma : F) (radius : Z) : list F :=
  let sigma2 := sigma * sigma in
  let x := seqZ (- radius) (2 * radius + 1) in
  let phi_x :=
    map (fun x => np_exp (- (of_Z 1 / of_Z 2) / sigma2 * of_Z (x * x))) x in
  let s := np_sum phi_x in
  map (fun p => p / s) phi_x.

(** [correlate1d(input, weights)] with origin 0 and reflecting borders:
    output[i] = sum_j weights[j] * input[i + j - len(weights) // 2]. *)
Definition correlate1d (input weights : list F) : list F :=
  let size1 := (Z.of_nat (length weights) / 2)%Z in
  map (fun i =>
         np_sum (imap (fun j w => w * nth_reflect input (i + Z.of_nat j - size1))
                      weights))
      (seqZ 0 (Z.of_nat (length input))).

(** [gaussian_filter1d(input, sigma)]: [truncate = 4.0],
    [lw = int(truncate * sd + 0.5)], the kernel reversed. *)
Definition gaussian_radius (sigma : F) : Z :=
  to_int (of_Z 4 * sigma + of_Z 1 / of_Z 2).

Definition gaussian_filter1d (input : list F) (sigma : F) : list F :=
  let lw := gaussian_radius sigma in
  let weights := rev (gaussian_kernel1d sigma lw) in
  correlate1d input weights.

(** The same filter along one axis of a two-dimensional array. *)
Definition column (j : nat) (m : list (list F)) : list F :=
  map (fun r => nth j r (of_Z 0)) m.

Definition gaussian_filter1d_axis1 (m : list (list F)) (sigma : F)
  : list (list F) :=
  map (fun r => gaussian_filter1d r sigma) m.

Definition gaussian_filter1d_axis0 (m : list (list F)) (sigma : F)
  : list (list F) :=
  let cols := map (fun j => gaussian_filter1d (column j m) sigma)
                  (seq 0 (ncols m)) in
  map (fun i => map (fun c => nth i c (of_Z 0)) cols) (seq 0 (nrows m)).

End Arrays.

(** ** Configuration *)

(** The module-level constants of [main.py] (lines 21-56). *)
Record Config (F : Type) : Type := {
  CANVAS_SIZE : Z;
  LINES_PER_FRAME : Z;
  FRAME_INTERVAL : Z;
  BASE_SPEED : F;
  FRICTION_FACTOR : F;
  ACCELERATION : F;
  LINE_TENSION : F
}.
Arguments CANVAS_SIZE {F} _.
Arguments LINES_PER_FRAME {F} _.
Arguments FRAME_INTERVAL {F} _.
Arguments BASE_SPEED {F} _.
Arguments FRICTION_FACTOR {F} _.
Arguments ACCELERATION {F} _.
Arguments LINE_TENSION {F} _.

(** The dictionary [PROCESS_PARAMS] (lines 59-63); its three keys are fixed. *)
Record ProcessParams (F : Type) : Type := {
  contrast_steepness : F;
  contrast_midpoint : F;
  blur_sigma : F
}.
Arguments contrast_steepness {F} _.
Arguments contrast_midpoint {F} _.
Arguments blur_sigma {F} _.

(** ** Library functions outside the repository

    Pillow's image type and the operations [load_image_data] calls on it,
    with the file system behind [Image.open], and [np.percentile]. *)
Class Extern (F image : Type) : Type := {
  Image_open : string -> result image;
  Image_fromarray : list (list Z) -> image;
  img_size : image -> Z * Z;
  img_crop : image -> F * F * F * F -> image;
  img_convert_L : image -> image;
  img_resize_lanczos : image -> Z * Z -> image;
  np_array : image -> list (list Z);
  np_percentile : list (list F) -> F -> F
}.

(** ** Image processing logic *)

Section ImageProcessing.
Context {F image : Type} {num : Num F} {ext : Extern F image}.
Variable cfg : Config F.
Local Open Scope num_scope.

(** [crop_center_square] (lines 75-88); [/] is Python's true division. *)
Definition crop_center_square (img : image) : image :=
  let '(width, height) := img_size img in
  let min_dim := Z.min width height in
  let left := of_Z (width - min_dim) / of_Z 2 in
  let top := of_Z (height - min_dim) / of_Z 2 in
  let right := of_Z (width + min_dim) / of_Z 2 in
  let bottom := of_Z (height + min_dim) / of_Z 2 in
  img_crop img (left, top, right, bottom).

(** [np.linspace(start, stop, num)] for [start <> stop]. *)
Definition linspace (start stop : F) (num : Z) : list F :=
  let delta := stop - start in
  let div := (num - 1)%Z in
  map (fun i =>
         if (1 <? num)%Z && (i =? num - 1)%Z then stop
         else if (0 <? div)%Z then of_Z i * (delta / of_Z div) + start
         else of_Z i * delta + start)
      (seqZ 0 num).

(** [.astype("uint8")] on values inside the 8-bit range. *)
Definition to_uint8 (v : F) : Z := (to_int v mod 256)%Z.

(** The default test texture (lines 103-108):
    [sin(xv * 10) * cos(yv * 5) * 127 + 128], as 8-bit samples;
    [meshgrid] puts [x] along the columns and [y] along the rows. *)
Definition default_texture : list (list Z) :=
  let x := linspace (of_Z 0) (of_Z 1) (CANVAS_SIZE cfg) in
  let y := linspace (of_Z 0) (of_Z 1) (CANVAS_SIZE cfg) in
  map (fun yv =>
         map (fun xv =>
                to_uint8 (np_sin (xv * of_Z 10) * np_cos (yv * of_Z 5)
                          * of_Z 127 + of_Z 128))
             x)
      y.

(** Lines 110-126, from an opened image to the raw normalized data. *)
Definition normalize_image (input_img : image) : list (list F) :=
  let input_img := crop_center_square input_img in
  let input_img := img_convert_L input_img in
  let input_img :=
    img_resize_lanczos input_img (CANVAS_SIZE cfg, CANVAS_SIZE cfg) in
  let data := map2d (fun p => of_Z p / of_Z 255) (np_array input_img) in
  let p_min := np_percentile data (of_Z 2) in
  let p_max := np_percentile data (of_Z 98) in
  let data :=
    if of_Z 0 <? p_max - p_min
    then map2d (fun v => (v - p_min) / (p_max - p_min)) data
    else data in
  map2d (fun v => clip v (of_Z 0) (of_Z 1)) data.

(** [load_image_data] (lines 91-126).  The [try] block opens the file, or
    raises [FileNotFoundError] itself on an empty path; the handler
    catches [FileNotFoundError] and [AttributeError] only. *)
Definition load_image_data (image_path : string) : result (list (list F)) :=
  let attempt :=
    if String.eqb image_path EmptyString then raise FileNotFoundError
    else Image_open image_path in
  input_img <--
    match attempt with
    | inl FileNotFoundError | inl AttributeError =>
        ok (Image_fromarray default_texture)
    | inl e => raise e
    | inr img => ok img
    end ;;
  ok (normalize_image input_img).

(** The statements of [apply_image_effects] (lines 129-147), one by one. *)
Definition s_curve (P : ProcessParams F) (data : list (list F))
  : list (list F) :=
  let steepness := contrast_steepness P in
  let midpoint := contrast_midpoint P in
  map2d (fun v => of_Z 1 / (of_Z 1 + np_exp (- (v - midpoint) * steepness)))
        data.

Definition renormalize (data : list (list F)) : list (list F) :=
  let lo := amin2d data in
  let hi := amax2d data in
  map2d (fun v => (v - lo) / (hi - lo)) data.

Definition preprocessing_blur (P : ProcessParams F) (data : list (list F))
  : list (list F) :=
  let sigma := blur_sigma P in
  let data := gaussian_filter1d_axis0 data sigma in
  gaussian_filter1d_axis1 data sigma.

Definition apply_image_effects (P : ProcessParams F) (data : list (list F))
  : list (list F) :=
  let data := s_curve P data in
  let data := renormalize data in
  let data := preprocessing_blur P data in
  flipud (map2d (fun v => v * of_Z 255) data).

End ImageProcessing.

(** ** Core animation loop *)

(** The simulation globals [frame_count] and [particles_x], and the
    offsets last handed to the scatter plot.  Each column array is
    referenced from [particles_x] only, so its in-place updates
    ([col_x += ...], [col_x[:] = ...]) are updates of the list entry. *)
Record Sim (F : Type) : Type := {
  frame_count : Z;
  particles_x : list (list F);
  scat_offsets : list (F * Z)
}.
Arguments frame_count {F} _.
Arguments particles_x {F} _.
Arguments scat_offsets {F} _.

Section Animation.
Context {F : Type} {num : Num F}.
Variable cfg : Config F.
Local Open Scope num_scope.

(** An integer index into one axis: numpy accepts [-n <= k < n] and
    counts a negative index from the end. *)
Definition np_index {A} (a : list A) (k : Z) : result A :=
  let n := Z.of_nat (length a) in
  let k' := if (k <? 0)%Z then (k + n)%Z else k in
  if (0 <=? k')%Z && (k' <? n)%Z then
    match a !! Z.to_nat k' with
    | Some v => ok v
    | None => raise IndexError
    end
  else raise IndexError.

(** [a[rows, cols]] with two index arrays: entry by entry.  numpy raises
    IndexError when the index arrays cannot be broadcast together; a
    column has as many entries as [y_indices], so the broadcast of a
    one-entry array is left out. *)
Definition fancy_index (a : list (list F)) (rows cols : list Z)
  : result (list F) :=
  if Nat.eqb (length rows) (length cols) then
    rmapM (fun rc => r <-- np_index a (fst rc) ;; np_index r (snd rc))
          (zip rows cols)
  else raise IndexError.

Definition y_indices : list Z := seqZ 0 (CANVAS_SIZE cfg).

(** Line 344: the column index of every row. *)
Definition current_x_int (col_x : list F) : list Z :=
  map (fun x => to_int (clip x (of_Z 0) (of_Z (CANVAS_SIZE cfg - 1)))) col_x.

(** Lines 345-346. *)
Definition sample_brightness (pixels : list (list F)) (col_x : list F)
  : result (list F) :=
  brightness <-- fancy_index pixels y_indices (current_x_int col_x) ;;
  ok (map (fun b => b / of_Z 255) brightness).

(** Lines 349-351. *)
Definition final_speed (norm_b col_x : list F) : list F :=
  let current_speed :=
    map (fun nb => BASE_SPEED cfg * (of_Z 1 - nb * FRICTION_FACTOR cfg))
        norm_b in
  let x_accel := map (fun x => x * ACCELERATION cfg) col_x in
  zip_with add current_speed x_accel.

(** What lines 346-354 store in a row at [x] whose sampled brightness is
    [b]: [x + (BASE_SPEED * (1.0 - b / 255.0 * FRICTION_FACTOR)
    + x * ACCELERATION)]. *)
Definition moved_row (b x : F) : F :=
  x + (BASE_SPEED cfg * (of_Z 1 - b / of_Z 255 * FRICTION_FACTOR cfg)
       + x * ACCELERATION cfg).

(** Lines 344-354: [col_x] after [col_x += final_speed]. *)
Definition move_column (pixels : list (list F)) (col_x : list F)
  : result (list F) :=
  norm_b <-- sample_brightness pixels col_x ;;
  ok (zip_with add col_x (final_speed norm_b col_x)).

(** Lines 344-357: one pass of the loop body over a column. *)
Definition advance_column (pixels : list (list F)) (col_x : list F)
  : result (list F) :=
  moved <-- move_column pixels col_x ;;
  ok (gaussian_filter1d moved (LINE_TENSION cfg)).

(** Line 360. *)
Definition keep_column (col_x : list F) : bool :=
  amin col_x <? of_Z (CANVAS_SIZE cfg).

(** Lines 334-337. [%] raises on a zero divisor, and is only evaluated
    when [is_generating] holds. *)
Definition spawns (is_generating : bool) (frame_count : Z) : result bool :=
  if is_generating then
    if (FRAME_INTERVAL cfg =? 0)%Z then raise ZeroDivisionError
    else ok (frame_count mod FRAME_INTERVAL cfg =? 0)%Z
  else ok false.

Definition np_zeros (n : Z) : list F := replicate (Z.to_nat n) (of_Z 0).

(** Lines 366-376. *)
Definition offsets (particles : list (list F)) : list (F * Z) :=
  let all_x := concat particles in
  let all_y := concat (map (fun _ => y_indices) particles) in
  List.filter (fun p => fst p <? of_Z (CANVAS_SIZE cfg)) (zip all_x all_y).

(** Lines 332-337: the columns the loop of line 342 runs over. *)
Definition spawn_columns (is_generating : bool) (s : Sim F)
  : result (list (list F)) :=
  spawn <-- spawns is_generating (frame_count s + 1)%Z ;;
  ok (if (spawn : bool)
      then particles_x s ++ [np_zeros (CANVAS_SIZE cfg)]
      else particles_x s).

(** Lines 342-357: every column advanced and smoothed, before the test
    of line 360. *)
Definition advanced_columns (pixels : list (list F)) (is_generating : bool)
           (s : Sim F) : result (list (list F)) :=
  particles <-- spawn_columns is_generating s ;;
  rmapM (advance_column pixels) particles.

(** [animate] (lines 329-378). *)
Definition animate (pixels : list (list F)) (is_generating : bool)
           (s : Sim F) : result (Sim F) :=
  advanced <-- advanced_columns pixels is_generating s ;;
  let active_particles := List.filter keep_column advanced in
  ok {| frame_count := (frame_count s + 1)%Z;
        particles_x := active_particles;
        scat_offsets := offsets active_particles |}.

(** [n] consecutive ticks with the same brightness buffer. *)
Fixpoint run (pixels : list (list F)) (is_generating : bool) (n : nat)
         (s : Sim F) : result (Sim F) :=
  match n with
  | O => ok s
  | S n' => (s' <-- animate pixels is_generating s ;;
             run pixels is_generating n' s')
  end.

(** No tick of the next [n] raises or drops a column at line 360. *)
Fixpoint no_cull (pixels : list (list F)) (is_generating : bool) (n : nat)
         (s : Sim F) : bool :=
  match n with
  | O => true
  | S n' =>
      match advanced_columns pixels is_generating s,
            animate pixels is_generating s with
      | inr advanced, inr s' =>
          forallb keep_column advanced
          && no_cull pixels is_generating n' s'
      | _, _ => false
      end
  end.

End Animation.

(** ** Interaction callbacks *)

(** The module globals and the state of the two plot objects that the
    callbacks read and write.  [effects_calls] is a ghost counter: the
    number of calls of [apply_image_effects] so far. *)
Record World (F : Type) : Type := {
  PROCESS_PARAMS : ProcessParams F;
  current_image_path : string;
  raw_normalized_data : option (list (list F));
  pixels : list (list F);
  img_obj_data : list (list F);
  img_obj_visible : bool;
  scat_visible : bool;
  current_bg_color : string;
  current_dot_color : string;
  is_generating : bool;
  sim : Sim F;
  effects_calls : nat
}.
Arguments PROCESS_PARAMS {F} _.
Arguments current_image_path {F} _.
Arguments raw_normalized_data {F} _.
Arguments pixels {F} _.
Arguments img_obj_data {F} _.
Arguments img_obj_visible {F} _.
Arguments scat_visible {F} _.
Arguments current_bg_color {F} _.
Arguments current_dot_color {F} _.
Arguments is_generating {F} _.
Arguments sim {F} _.
Arguments effects_calls {F} _.

(** What the timer and the user can do; a dialog's answer comes with the
    event ([None]: the colour dialog was cancelled; the empty path: the
    file dialog was cancelled). *)
Inductive event : Type :=
  | Tick
  | ToggleView
  | SelectImage (file_path : string)
  | SetBgColor (color : option string)
  | SetDotColor (color : option string)
  | ToggleGeneration.

Section Callbacks.
Context {F image : Type} {num : Num F} {ext : Extern F image}.
Variable cfg : Config F.

(** [toggle_view] (lines 194-201) *)
Definition toggle_view (w : World F) : World F :=
  let current_state := img_obj_visible w in
  {| PROCESS_PARAMS := PROCESS_PARAMS w;
     current_image_path := current_image_path w;
     raw_normalized_data := raw_normalized_data w;
     pixels := pixels w;
     img_obj_data := img_obj_data w;
     img_obj_visible := negb current_state;
     scat_visible := current_state;
     current_bg_color := current_bg_color w;
     current_dot_color := current_dot_color w;
     is_generating := is_generating w;
     sim := sim w;
     effects_calls := effects_calls w |}.

(** [select_image] (lines 204-225) *)
Definition select_image (file_path : string) (w : World F)
  : result (World F) :=
  if String.eqb file_path EmptyString then ok w
  else
    raw <-- load_image_data cfg file_path ;;
    let new_pixels := apply_image_effects (PROCESS_PARAMS w) raw in
    ok {| PROCESS_PARAMS := PROCESS_PARAMS w;
          current_image_path := file_path;
          raw_normalized_data := Some raw;
          pixels := new_pixels;
          img_obj_data := new_pixels;
          img_obj_visible := img_obj_visible w;
          scat_visible := scat_visible w;
          current_bg_color := current_bg_color w;
          current_dot_color := current_dot_color w;
          is_generating := is_generating w;
          sim := {| frame_count := 0;
                    particles_x := [];
                    scat_offsets := scat_offsets (sim w) |};
          effects_calls := S (effects_calls w) |}.

(** [set_bg_color] (lines 228-240) *)
Definition set_bg_color (color : option string) (w : World F) : World F :=
  match color with
  | Some c =>
      {| PROCESS_PARAMS := PROCESS_PARAMS w;
         current_image_path := current_image_path w;
         raw_normalized_data := raw_normalized_data w;
         pixels := pixels w;
         img_obj_data := img_obj_data w;
         img_obj_visible := img_obj_visible w;
         scat_visible := scat_visible w;
         current_bg_color := c;
         current_dot_color := current_dot_color w;
         is_generating := is_generating w;
         sim := sim w;
         effects_calls := effects_calls w |}
  | None => w
  end.

(** [set_dot_color] (lines 243-259).  [pixels] is not declared global
    there: the assignment of line 257 binds a local name, and the new
    buffer reaches the image object only. *)
Definition set_dot_color (color : option string) (w : World F) : World F :=
  let dot := match color with
             | Some c => c
             | None => current_dot_color w
             end in
  match raw_normalized_data w with
  | Some raw =>
      let local_pixels := apply_image_effects (PROCESS_PARAMS w) raw in
      {| PROCESS_PARAMS := PROCESS_PARAMS w;
         current_image_path := current_image_path w;
         raw_normalized_data := raw_normalized_data w;
         pixels := pixels w;
         img_obj_data := local_pixels;
         img_obj_visible := img_obj_visible w;
         scat_visible := scat_visible w;
         current_bg_color := current_bg_color w;
         current_dot_color := dot;
         is_generating := is_generating w;
         sim := sim w;
         effects_calls := S (effects_calls w) |}
  | None =>
      {| PROCESS_PARAMS := PROCESS_PARAMS w;
         current_image_path := current_image_path w;
         raw_normalized_data := raw_normalized_data w;
         pixels := pixels w;
         img_obj_data := img_obj_data w;
         img_obj_visible := img_obj_visible w;
         scat_visible := scat_visible w;
         current_bg_color := current_bg_color w;
         current_dot_color := dot;
         is_generating := is_generating w;
         sim := sim w;
         effects_calls := effects_calls w |}
  end.

(** [toggle_generation] (lines 262-269) *)
Definition toggle_generation (w : World F) : World F :=
  {| PROCESS_PARAMS := PROCESS_PARAMS w;
     current_image_path := current_image_path w;
     raw_normalized_data := raw_normalized_data w;
     pixels := pixels w;
     img_obj_data := img_obj_data w;
     img_obj_visible := img_obj_visible w;
     scat_visible := scat_visible w;
     current_bg_color := current_bg_color w;
     current_dot_color := current_dot_color w;
     is_generating := negb (is_generating w);
     sim := sim w;
     effects_calls := effects_calls w |}.

(** The timer callback: [animate] on the globals. *)
Definition tick (w : World F) : result (World F) :=
  s <-- animate cfg (pixels w) (is_generating w) (sim w) ;;
  ok {| PROCESS_PARAMS := PROCESS_PARAMS w;
        current_image_path := current_image_path w;
        raw_normalized_data := raw_normalized_data w;
        pixels := pixels w;
        img_obj_data := img_obj_data w;
        img_obj_visible := img_obj_visible w;
        scat_visible := scat_visible w;
        current_bg_color := current_bg_color w;
        current_dot_color := current_dot_color w;
        is_generating := is_generating w;
        sim := s;
        effects_calls := effects_calls w |}.

Definition handle (ev : event) (w : World F) : result (World F) :=
  match ev with
  | Tick => tick w
  | ToggleView => ok (toggle_view w)
  | SelectImage file_path => select_image file_path w
  | SetBgColor color => ok (set_bg_color color w)
  | SetDotColor color => ok (set_dot_color color w)
  | ToggleGeneration => ok (toggle_generation w)
  end.

(** Module initialisation (lines 59-68, 150-152, 163-188). *)
Definition init_world (P : ProcessParams F) (bg dot : string)
  : result (World F) :=
  raw <-- load_image_data cfg "input.jpg" ;;
  let px := apply_image_effects P raw in
  ok {| PROCESS_PARAMS := P;
        current_image_path := "input.jpg";
        raw_normalized_data := Some raw;
        pixels := px;
        img_obj_data := px;
        img_obj_visible := false;
        scat_visible := true;
        current_bg_color := bg;
        current_dot_color := dot;
        is_generating := true;
        sim := {| frame_count := 0; particles_x := []; scat_offsets := [] |};
        effects_calls := 1 |}.

End Callbacks.

(** ** numpy arrays, by reference

    [apply_image_effects] once more, on a store of array buffers, to tell
    the operations that allocate their result from those that alias an
    operand.  An [ndarray] object is a view of a buffer; [np.flipud]
    returns a view of its operand's buffer, every arithmetic operation and
    [gaussian_filter1d] a new buffer. *)

Record ndarray : Type := {
  base : nat;
  flipped : bool
}.

Section Store.
Context {F : Type} {num : Num F}.
Local Open Scope num_scope.

Definition ST (A : Type) : Type :=
  gmap nat (list (list F)) -> A * gmap nat (list (list F)).

Definition st_ret {A} (a : A) : ST A := fun h => (a, h).

Definition st_bind {A B} (m : ST A) (k : A -> ST B) : ST B :=
  fun h => let '(a, h') := m h in k a h'.

(** The array an object denotes in a store. *)
Definition contents (a : ndarray) (h : gmap nat (list (list F)))
  : list (list F) :=
  let v := default [] (h !! base a) in
  if flipped a then flipud v else v.

Definition read (a : ndarray) : ST (list (list F)) :=
  fun h => (contents a h, h).

Definition alloc (v : list (list F)) : ST ndarray :=
  fun h => let l := fresh (dom h) in
           ({| base := l; flipped := false |}, <[l := v]> h).

(** An elementwise operation with scalars. *)
Definition np_map (f : F -> F) (a : ndarray) : ST ndarray :=
  st_bind (read a) (fun v => alloc (map2d f v)).

Definition np_filter (f : list (list F) -> list (list F)) (a : ndarray)
  : ST ndarray :=
  st_bind (read a) (fun v => alloc (f v)).

Definition np_flipud (a : ndarray) : ST ndarray :=
  st_ret {| base := base a; flipped := negb (flipped a) |}.

Definition apply_image_effects_st (P : ProcessParams F) (data : ndarray)
  : ST ndarray :=
  let steepness := contrast_steepness P in
  let midpoint := contrast_midpoint P in
  (* data = 1 / (1 + np.exp(-(data - midpoint) * steepness)) *)
  st_bind (np_map (fun v => v - midpoint) data) (fun t1 =>
  st_bind (np_map neg t1) (fun t2 =>
  st_bind (np_map (fun v => v * steepness) t2) (fun t3 =>
  st_bind (np_map np_exp t3) (fun t4 =>
  st_bind (np_map (fun v => of_Z 1 + v) t4) (fun t5 =>
  st_bind (np_map (fun v => of_Z 1 / v) t5) (fun data =>
  (* data = (data - data.min()) / (data.max() - data.min()) *)
  st_bind (read data) (fun v =>
  let lo := amin2d v in
  st_bind (np_map (fun x => x - lo) data) (fun t6 =>
  st_bind (read data) (fun v =>
  let range := amax2d v - amin2d v in
  st_bind (np_map (fun x => x / range) t6) (fun data =>
  let sigma := blur_sigma P in
  st_bind (np_filter (fun v => gaussian_filter1d_axis0 v sigma) data)
          (fun data =>
  st_bind (np_filter (fun v => gaussian_filter1d_axis1 v sigma) data)
          (fun data =>
  (* return np.flipud(data * 255.0) *)
  st_bind (np_map (fun v => v * of_Z 255) data) (fun t7 =>
  np_flipud t7))))))))))))).

End Store.

(** ** The control panel ([src/controls.py])

    [ControlPanelMSG] builds nine sliders over a dictionary [params] that
    it shares with its caller: a slider takes its initial value from the
    dictionary and its callback writes the new value into it.  The
    figure, the axes and the texts are left out. *)

(** [self.params[key]] on a key the dictionary does not have. *)
Inductive panel_exn : Type :=
  | KeyError (key : string).

(** The arguments of a call of [_add_slider]. *)
Record slider_args (F : Type) : Type := {
  label : string;
  key : string;
  vmin : F;
  vmax : F;
  valstep : option F;
  is_process : bool
}.
Arguments label {F} _.
Arguments key {F} _.
Arguments vmin {F} _.
Arguments vmax {F} _.
Arguments valstep {F} _.
Arguments is_process {F} _.

(** A [Slider] as the panel makes it: the arguments and [valinit]. *)
Record Slider (F : Type) : Type := {
  slider_args_of : slider_args F;
  valinit : F
}.
Arguments slider_args_of {F} _.
Arguments valinit {F} _.

Section Controls.
Context {F : Type} {num : Num F}.
Local Open Scope num_scope.

(** The calls of [_add_slider] in [__init__] (lines 31-119), in order. *)
Definition panel_sliders : list (slider_args F) := [
  {| label := "Lines/Frame"; key := "LINES_PER_FRAME";
     vmin := of_Z 1; vmax := of_Z 10; valstep := Some (of_Z 1);
     is_process := false |};
  {| label := "Interval"; key := "FRAME_INTERVAL";
     vmin := of_Z 1; vmax := of_Z 60; valstep := Some (of_Z 1);
     is_process := false |};
  {| label := "Base Speed"; key := "BASE_SPEED";
     vmin := of_Z 1 / of_Z 10; vmax := of_Z 10; valstep := None;
     is_process := false |};
  {| label := "Friction"; key := "FRICTION_FACTOR";
     vmin := of_Z 0; vmax := of_Z 1; valstep := None;
     is_process := false |};
  {| label := "Accel"; key := "ACCELERATION";
     vmin := of_Z 0; vmax := of_Z 2 / of_Z 1000; valstep := None;
     is_process := false |};
  {| label := "Tension"; key := "LINE_TENSION";
     vmin := of_Z 1 / of_Z 10; vmax := of_Z 2; valstep := None;
     is_process := false |};
  {| label := "Contrast Str"; key := "contrast_steepness";
     vmin := of_Z 1; vmax := of_Z 20; valstep := None;
     is_process := true |};
  {| label := "Contrast Mid"; key := "contrast_midpoint";
     vmin := of_Z 0; vmax := of_Z 1; valstep := None;
     is_process := true |};
  {| label := "Blur"; key := "blur_sigma";
     vmin := of_Z 0; vmax := of_Z 10; valstep := None;
     is_process := true |}
].

(** [_add_slider] (lines 126-167): [valinit=self.params[key]] raises on
    a missing key. *)
Definition _add_slider (params : gmap string F) (args : slider_args F)
  : panel_exn + Slider F :=
  match params !! key args with
  | Some v => inr {| slider_args_of := args; valinit := v |}
  | None => inl (KeyError (key args))
  end.

(** The calls in order; the first exception ends the construction. *)
Fixpoint add_sliders (params : gmap string F) (calls : list (slider_args F))
  : panel_exn + list (Slider F) :=
  match calls with
  | [] => inr []
  | args :: rest =>
      match _add_slider params args with
      | inl e => inl e
      | inr slider =>
          match add_sliders params rest with
          | inl e => inl e
          | inr sliders => inr (slider :: sliders)
          end
      end
  end.

(** [ControlPanelMSG.__init__]: [self.sliders] when it returns. *)
Definition ControlPanelMSG (params : gmap string F)
  : panel_exn + list (Slider F) :=
  add_sliders params panel_sliders.

(** The callback [update] of a slider (lines 161-164), on the shared
    dictionary and the number of calls of [on_process_change] made so
    far. *)
Definition update (args : slider_args F) (val : F)
           (st : gmap string F * nat) : gmap string F * nat :=
  let params := <[key args := val]> (fst st) in
  (params, if is_process args then S (snd st) else snd st).

(** A sequence of slider moves: which slider, and the value it reports. *)
Definition moves (ms : list (slider_args F * F)) (st : gmap string F * nat)
  : gmap string F * nat :=
  fold_left (fun st m => update (fst m) (snd m) st) ms st.

End Controls.

(** ** The initial parameter values *)

(** Lines 21-56 and 59-63 of [main.py]. *)
Definition default_config {F : Type} {num : Num F} : Config F := {|
  CANVAS_SIZE := 512;
  LINES_PER_FRAME := 1;
  FRAME_INTERVAL := 15;
  BASE_SPEED := of_Z 3;
  FRICTION_FACTOR := div (of_Z 9) (of_Z 10);
  ACCELERATION := div (of_Z 1) (of_Z 10000);
  LINE_TENSION := div (of_Z 3) (of_Z 10)
|}.

Definition default_process_params {F : Type} {num : Num F} : ProcessParams F := {|
  contrast_steepness := of_Z 9;
  contrast_midpoint := div (of_Z 3) (of_Z 10);
  blur_sigma := of_Z 2
|}.

(** The initial parameters with another contrast curve. *)
Definition contrast_params {F : Type} {num : Num F} (steepness midpoint : F)
  : ProcessParams F := {|
  contrast_steepness := steepness;
  contrast_midpoint := midpoint;
  blur_sigma := of_Z 2
|}.

Definition with_lines_per_frame {F : Type} (l : Z) (cfg : Config F)
  : Config F := {|
  CANVAS_SIZE := CANVAS_SIZE cfg;
  LINES_PER_FRAME := l;
  FRAME_INTERVAL := FRAME_INTERVAL cfg;
  BASE_SPEED := BASE_SPEED cfg;
  FRICTION_FACTOR := FRICTION_FACTOR cfg;
  ACCELERATION := ACCELERATION cfg;
  LINE_TENSION := LINE_TENSION cfg
|}.

Definition with_canvas_size {F : Type} (n : Z) (cfg : Config F)
  : Config F := {|
  CANVAS_SIZE := n;
  LINES_PER_FRAME := LINES_PER_FRAME cfg;
  FRAME_INTERVAL := FRAME_INTERVAL cfg;
  BASE_SPEED := BASE_SPEED cfg;
  FRICTION_FACTOR := FRICTION_FACTOR cfg;
  ACCELERATION := ACCELERATION cfg;
  LINE_TENSION := LINE_TENSION cfg
|}.

Definition initial_sim {F : Type} : Sim F :=
  {| frame_count := 0; particles_x := []; scat_offsets := [] |}.

(** An array of shape (n, n). *)
Definition square {A : Type} (n : Z) (m : list (list A)) : Prop :=
  Z.of_nat (length m) = n /\ Forall (fun r => Z.of_nat (length r) = n) m.

(** A uniform square buffer. *)
Definition uniform_field {F : Type} (n : Z) (v : F) : list (list F) :=
  replicate (Z.to_nat n) (replicate (Z.to_nat n) v).

(** ** A rational instance to run examples on

    Rational functions in the place of [np.exp], [np.sin] and [np.cos]:
    the (2,2) Pade approximant of the exponential, which is positive
    everywhere, and the Taylor polynomials of degree three and two. *)
Definition pade_exp (x : Q) : Q :=
  ((12 + 6 * x + x * x) / (12 - 6 * x + x * x))%Q.
Definition taylor_sin (x : Q) : Q := (x - x * x * x / 6)%Q.
Definition taylor_cos (x : Q) : Q := (1 - x * x / 2)%Q.

Definition Q_sample : Num Q := Q_num pade_exp taylor_sin taylor_cos.

(** A canvas of four rows with the initial physics parameters, a uniform
    mid-grey buffer for it, a column with positions on and beyond the
    canvas, and one that also has a position left of it. *)
Definition small_config : Config Q :=
  with_canvas_size 4 (default_config (num := Q_sample)).
Definition grey_pixels : list (list Q) := uniform_field 4 128%Q.
Definition sample_column : list Q := [0; 1; 5 # 2; 7]%Q.
Definition stray_column : list Q := [-3; 1; 5 # 2; 7]%Q.

(** A state with that column and one that has left the canvas. *)
Definition sample_sim : Sim Q :=
  {| frame_count := 0;
     particles_x := [sample_column; [9; 9; 9; 9]%Q];
     scat_offsets := [] |}.

(** Stand-ins for Pillow on images held as arrays of 8-bit samples, with
    a file system that has no file: cropping by the truncated box,
    nearest-neighbour resizing, and the point [q] percent of the way from
    the minimum to the maximum in the place of the percentile. *)
Definition crop_range {A : Type} (lo hi : Z) (l : list A) : list A :=
  take (Z.to_nat (hi - lo)) (drop (Z.to_nat lo) l).

Definition nearest_resize (img : list (list Z)) (size : Z * Z)
  : list (list Z) :=
  let H := Z.of_nat (nrows img) in
  let W := Z.of_nat (ncols img) in
  map (fun i =>
         map (fun j =>
                nth (Z.to_nat (j * W / fst size))
                    (nth (Z.to_nat (i * H / snd size)) img []) 0)
             (seqZ 0 (fst size)))
      (seqZ 0 (snd size)).

Definition sample_extern : Extern Q (list (list Z)) := {|
  Image_open := fun _ => raise FileNotFoundError;
  Image_fromarray := fun a => a;
  img_size := fun img => (Z.of_nat (ncols img), Z.of_nat (nrows img));
  img_crop := fun img box =>
    let '(x0, y0, x1, y1) := box in
    map (crop_range (Qtrunc x0) (Qtrunc x1))
        (crop_range (Qtrunc y0) (Qtrunc y1) img);
  img_convert_L := fun img => img;
  img_resize_lanczos := nearest_resize;
  np_array := fun img => img;
  np_percentile := fun data q =>
    (amin2d (num := Q_sample) data
     + (amax2d (num := Q_sample) data - amin2d (num := Q_sample) data)
       * q / 100)%Q
|}.

(** A store with one array, and an object on it. *)
Definition sample_store : gmap nat (list (list Q)) :=
  {[ 7%nat := [[0; 1 # 2]; [1; 1 # 4]]%Q ]}.
Definition sample_array : ndarray := {| base := 7; flipped := false |}.

(** Every entry of a two-dimensional array lies in [[lo, hi]]. *)
Definition in_range (lo hi : Q) (m : list (list Q)) : Prop :=
  Forall (Forall (fun v => lo <= v <= hi)%Q) m.

(** ** A binary64 instance to run examples on

    [np.exp] on the two arguments the smoothing kernel of sigma = 0.3
    takes it at: [exp(-0.0) = 1], and [exp(-0.5 / 0.09)], given as [e]
    (0x1.fab6c122cebaap-9 is the binary64 number nearest to it).
    [np.sin] and [np.cos], which a tick does not use, are the identity. *)
Definition kernel_exp (e : float) (x : float) : float :=
  if PrimFloat.eqb x 0 then 1%float else e.

Definition F_sample (e : float) : Num float :=
  float_num (kernel_exp e) (fun x => x) (fun x => x).

(** A canvas of four rows where a row on a white pixel stands still:
    FRICTION_FACTOR = 1 and ACCELERATION = 0, both inside the ranges of
    the sliders; the other parameters at their initial values. *)
Definition sticky_config : Config float := {|
  CANVAS_SIZE := 4;
  LINES_PER_FRAME := 1;
  FRAME_INTERVAL := 15;
  BASE_SPEED := 3%float;
  FRICTION_FACTOR := 1%float;
  ACCELERATION := 0%float;
  LINE_TENSION := PrimFloat.div 3 10
|}.

Definition white_pixels : list (list float) := uniform_field 4 255%float.

(** * Properties *)

(** ** The error monad *)

Lemma rbind_ok {A B} (m : result A) (k : A -> result B) (b : B) :
  rbind m k = inr b -> exists a, m = inr a /\ k a = inr b.
Proof.
  destruct m as [e | a]; simpl; [discriminate | eauto].
Qed.

Lemma rmapM_length {A B} (f : A -> result B) (xs : list A) (ys : list B) :
  rmapM f xs = inr ys -> length ys = length xs.
Proof.
  revert ys. induction xs as [| x xs IH]; intros ys Hm; simpl in Hm.
  - injection Hm as <-. reflexivity.
  - apply rbind_ok in Hm as (y & _ & Hm).
    apply rbind_ok in Hm as (ys' & Hys & Hm).
    injection Hm as <-. simpl. f_equal. apply IH. exact Hys.
Qed.

Lemma rmapM_lookup {A B} (f : A -> result B) (xs : list A) (ys : list B) :
  rmapM f xs = inr ys ->
  forall i x, xs !! i = Some x -> exists y, ys !! i = Some y /\ f x = inr y.
Proof.
  revert ys. induction xs as [| x xs IH]; intros ys Hm i a Hi; simpl in Hm.
  - rewrite lookup_nil in Hi. discriminate.
  - apply rbind_ok in Hm as (y & Hy & Hm).
    apply rbind_ok in Hm as (ys' & Hys & Hm).
    injection Hm as <-. destruct i as [| i]; simpl in *.
    + injection Hi as <-. eauto.
    + eapply IH; eauto.
Qed.

Lemma rmapM_total {A B} (f : A -> result B) (xs : list A) :
  (forall x, In x xs -> exists y, f x = inr y) ->
  exists ys, rmapM f xs = inr ys.
Proof.
  induction xs as [| x xs IH]; intros Hf; simpl.
  - eexists. reflexivity.
  - destruct (Hf x) as [y Hy]; [left; reflexivity |].
    destruct IH as [ys Hys]; [intros; apply Hf; right; assumption |].
    rewrite Hy, Hys. simpl. eexists. reflexivity.
Qed.

(** ** Spawn cadence *)

Lemma div_succ_step (f T : Z) :
  1 <= T ->
  (f + 1) / T = f / T + (if (f + 1) mod T =? 0 then 1 else 0).
Proof.
  intros HT. destruct ((f + 1) mod T =? 0) eqn:E.
  - apply Z.eqb_eq in E. Z.div_mod_to_equations. nia.
  - apply Z.eqb_neq in E. Z.div_mod_to_equations. nia.
Qed.

Section SpawnCadence.
Context {F : Type} {num : Num F}.
Variable cfg : Config F.
Variable pixels : list (list F).
Hypothesis interval_pos : 1 <= FRAME_INTERVAL cfg.

(** A new column is the array [np.zeros(CANVAS_SIZE)]; one is appended on
    the ticks whose number the interval divides, none on the others,
    whatever LINES_PER_FRAME is. *)
Lemma spawn_columns_generating (s : Sim F) :
  spawn_columns cfg true s =
  ok (if (frame_count s + 1) mod FRAME_INTERVAL cfg =? 0
      then particles_x s
           ++ [replicate (Z.to_nat (CANVAS_SIZE cfg)) (of_Z 0)]
      else particles_x s).
Proof using interval_pos.
  unfold spawn_columns, spawns.
  destruct (FRAME_INTERVAL cfg =? 0) eqn:E; [apply Z.eqb_eq in E; lia |].
  reflexivity.
Qed.

Lemma advanced_columns_length (s : Sim F) (adv : list (list F)) :
  advanced_columns cfg pixels true s = inr adv ->
  Z.of_nat (length adv) =
  Z.of_nat (length (particles_x s))
  + (if (frame_count s + 1) mod FRAME_INTERVAL cfg =? 0 then 1 else 0).
Proof using interval_pos.
  unfold advanced_columns. rewrite spawn_columns_generating. simpl.
  intros Hm. apply rmapM_length in Hm. rewrite Hm.
  destruct (_ =? 0); [rewrite length_app; simpl; lia | lia].
Qed.

Lemma filter_forallb {A} (p : A -> bool) (l : list A) :
  forallb p l = true -> List.filter p l = l.
Proof.
  induction l as [| a l IH]; simpl; [reflexivity |].
  intros Hp. apply andb_prop in Hp as [Ha Hl]. rewrite Ha, IH; auto.
Qed.

Lemma run_no_cull (n : nat) : forall s : Sim F,
  no_cull cfg pixels true n s = true ->
  exists s',
    run cfg pixels true n s = inr s'
    /\ frame_count s' = frame_count s + Z.of_nat n
    /\ Z.of_nat (length (particles_x s')) =
       Z.of_nat (length (particles_x s))
       + (frame_count s + Z.of_nat n) / FRAME_INTERVAL cfg
       - frame_count s / FRAME_INTERVAL cfg.
Proof using interval_pos.
  induction n as [| n IH]; intros s Hn.
  - exists s. simpl. rewrite Z.add_0_r. repeat split; lia.
  - cbn [no_cull] in Hn.
    destruct (advanced_columns cfg pixels true s) as [e | adv] eqn:Hadv;
      [discriminate |].
    destruct (animate cfg pixels true s) as [e | s1] eqn:Han;
      [discriminate |].
    apply andb_prop in Hn as [Hkeep Hrest].
    destruct (IH s1 Hrest) as (s' & Hrun & Hfc & Hlen).
    exists s'. cbn [run]. rewrite Han. simpl. split; [exact Hrun |].
    unfold animate in Han. rewrite Hadv in Han. simpl in Han.
    injection Han as <-. simpl in Hfc, Hlen.
    rewrite (filter_forallb _ _ Hkeep) in Hlen.
    rewrite (advanced_columns_length _ _ Hadv) in Hlen.
    pose proof (div_succ_step (frame_count s) _ interval_pos) as Hd.
    split; [lia |].
    replace (frame_count s + Z.of_nat (S n))
      with (frame_count s + 1 + Z.of_nat n) by lia.
    destruct ((frame_count s + 1) mod FRAME_INTERVAL cfg =? 0); lia.
Qed.

(** What the code does for the spawn cadence: from the initial state,
    with generation enabled and nothing culled, [k * FRAME_INTERVAL]
    ticks leave exactly [k] columns: one per interval. *)
Lemma spawn_cadence_one_per_interval (k : nat) :
  let n := (k * Z.to_nat (FRAME_INTERVAL cfg))%nat in
  let s0 := {| frame_count := 0; particles_x := []; scat_offsets := [] |} in
  no_cull cfg pixels true n s0 = true ->
  exists s, run cfg pixels true n s0 = inr s
            /\ length (particles_x s) = k.
Proof using interval_pos.
  intros n s0 Hn. destruct (run_no_cull n s0 Hn) as (s & Hrun & _ & Hlen).
  exists s. split; [exact Hrun |].
  subst s0. cbn [frame_count particles_x] in Hlen.
  replace (0 + Z.of_nat n) with (Z.of_nat k * FRAME_INTERVAL cfg) in Hlen
    by (unfold n; lia).
  rewrite Z.div_mul in Hlen by lia.
  rewrite Z.div_0_l in Hlen by lia. simpl in Hlen. lia.
Qed.

End SpawnCadence.

(** C1 (spawn cadence), the code against the claim.  The claim promises
    [k * linesPerTick] columns after [k * tickInterval] ticks.  With
    LINES_PER_FRAME = 2 and the other constants at their initial values
    (FRAME_INTERVAL = 15, canvas 512), generation enabled, a dark buffer and
    no column culled, the 15 ticks of [k = 1] leave one column where the
    claim has two: [animate] appends a single [np.zeros(CANVAS_SIZE)] per
    interval and never reads LINES_PER_FRAME. *)
Theorem spawn_ignores_lines_per_frame :
  let cfg := with_lines_per_frame 2 (default_config (num := Q_sample)) in
  let pixels := uniform_field 512 0%Q in
  let k := 1%nat in
  LINES_PER_FRAME cfg = 2
  /\ FRAME_INTERVAL cfg = 15
  /\ no_cull (num := Q_sample) cfg pixels true (k * 15) initial_sim = true
  /\ exists s, run (num := Q_sample) cfg pixels true (k * 15) initial_sim
               = inr s
               /\ length (particles_x s) = 1%nat
               /\ Z.of_nat (length (particles_x s))
                  <> Z.of_nat k * LINES_PER_FRAME cfg.
Proof.
  intros cfg pixels k.
  assert (Hn : no_cull (num := Q_sample) cfg pixels true (k * 15) initial_sim
               = true) by (vm_compute; reflexivity).
  split; [reflexivity |]. split; [reflexivity |]. split; [exact Hn |].
  destruct (spawn_cadence_one_per_interval cfg pixels ltac:(simpl; lia) k Hn)
    as (s & Hrun & Hlen).
  exists s. split; [exact Hrun |]. split; [exact Hlen |].
  rewrite Hlen. simpl. lia.
Qed.

(** ** Caching of the brightness buffer *)

Section Caching.
Context {F image : Type} {num : Num F} {ext : Extern F image}.
Variable cfg : Config F.

(** A tick reads the cached buffer: it never calls [apply_image_effects]
    and leaves the buffer, the raw data and the parameters as they are. *)
Lemma tick_reuses_buffer (w w' : World F) :
  handle cfg Tick w = inr w' ->
  effects_calls w' = effects_calls w
  /\ pixels w' = pixels w
  /\ img_obj_data w' = img_obj_data w
  /\ raw_normalized_data w' = raw_normalized_data w
  /\ PROCESS_PARAMS w' = PROCESS_PARAMS w.
Proof.
  simpl. unfold tick. intros Ht.
  apply rbind_ok in Ht as (s & _ & Ht). injection Ht as <-.
  repeat split; reflexivity.
Qed.

(** Neither do the view, background-colour and start/stop callbacks. *)
Lemma display_callbacks_reuse_buffer (ev : event) (w w' : World F) :
  match ev with
  | ToggleView | SetBgColor _ | ToggleGeneration => True
  | _ => False
  end ->
  handle cfg ev w = inr w' ->
  effects_calls w' = effects_calls w
  /\ pixels w' = pixels w
  /\ img_obj_data w' = img_obj_data w.
Proof.
  destruct ev as [| | p | c | c |]; simpl; intros Hev Hh;
    try contradiction; injection Hh as <-.
  - repeat split; reflexivity.
  - destruct c; repeat split; reflexivity.
  - repeat split; reflexivity.
Qed.

(** Selecting an image produces a new raw field and one recomputation. *)
Lemma select_image_recomputes (p : string) (w w' : World F) :
  p <> EmptyString ->
  handle cfg (SelectImage p) w = inr w' ->
  exists raw, load_image_data cfg p = inr raw
              /\ raw_normalized_data w' = Some raw
              /\ pixels w' = apply_image_effects (PROCESS_PARAMS w) raw
              /\ effects_calls w' = S (effects_calls w).
Proof.
  simpl. unfold select_image. intros Hp Hh.
  destruct (String.eqb p EmptyString) eqn:E;
    [apply String.eqb_eq in E; contradiction |].
  apply rbind_ok in Hh as (raw & Hraw & Hh). injection Hh as <-.
  exists raw. repeat split; [exact Hraw | reflexivity ..].
Qed.

(** Once loaded, the raw data stays cached: no event resets it. *)
Lemma raw_stays_cached (ev : event) (w w' : World F) :
  is_Some (raw_normalized_data w) ->
  handle cfg ev w = inr w' ->
  is_Some (raw_normalized_data w').
Proof.
  intros Hs. destruct ev as [| | p | c | c |]; simpl; intros Hh.
  - apply tick_reuses_buffer in Hh as (_ & _ & _ & -> & _). exact Hs.
  - injection Hh as <-. exact Hs.
  - unfold select_image in Hh. destruct (String.eqb p EmptyString).
    + injection Hh as <-. exact Hs.
    + apply rbind_ok in Hh as (raw & _ & Hh). injection Hh as <-.
      simpl. eauto.
  - injection Hh as <-. destruct c; exact Hs.
  - injection Hh as <-. unfold set_dot_color.
    destruct (raw_normalized_data w); simpl; eauto.
  - injection Hh as <-. exact Hs.
Qed.

(** C7 (recomputation only on a parameter or raw-field change), the code
    against the claim.  The particle-colour callback leaves PROCESS_PARAMS,
    the raw field and the global buffer as they are, whatever the dialog
    answers (also when it is cancelled), and still calls
    [apply_image_effects] once whenever the raw field is loaded, handing
    the result to the image object. *)
Theorem set_dot_color_recomputes (color : option string) (w : World F) :
  handle cfg (SetDotColor color) w = inr (set_dot_color color w)
  /\ PROCESS_PARAMS (set_dot_color color w) = PROCESS_PARAMS w
  /\ raw_normalized_data (set_dot_color color w) = raw_normalized_data w
  /\ pixels (set_dot_color color w) = pixels w
  /\ effects_calls (set_dot_color color w) =
     match raw_normalized_data w with
     | Some _ => S (effects_calls w)
     | None => effects_calls w
     end
  /\ img_obj_data (set_dot_color color w) =
     match raw_normalized_data w with
     | Some raw => apply_image_effects (PROCESS_PARAMS w) raw
     | None => img_obj_data w
     end.
Proof.
  split; [reflexivity |]. unfold set_dot_color.
  destruct (raw_normalized_data w) as [raw |] eqn:E; simpl;
    rewrite ?E; repeat split; reflexivity.
Qed.

End Caching.

(** ** The brightness processor does not write to its input *)

Section StoreFrame.
Context {F : Type} {num : Num F}.

Lemma fresh_unallocated (h : gmap nat (list (list F))) :
  h !! fresh (dom h) = None.
Proof. apply not_elem_of_dom. apply is_fresh. Qed.

Lemma map2d_map2d {A B C} (f : A -> B) (g : B -> C) (m : list (list A)) :
  map2d g (map2d f m) = map2d (fun x => g (f x)) m.
Proof.
  unfold map2d. rewrite map_map. apply map_ext. intros r. apply map_map.
Qed.

(** An allocating operation: the store only grows, the result is a new
    buffer, unflipped, holding the computed array. *)
Lemma np_filter_spec (g : list (list F) -> list (list F)) (a : ndarray)
      (h : gmap nat (list (list F))) :
  exists b h',
    np_filter g a h = (b, h')
    /\ h ⊆ h'
    /\ h !! base b = None
    /\ flipped b = false
    /\ h' !! base b = Some (g (contents a h)).
Proof.
  unfold np_filter, st_bind, read, alloc. simpl.
  eexists _, _. split; [reflexivity |]. simpl.
  pose proof (fresh_unallocated h) as Hf.
  repeat split.
  - apply insert_subseteq. exact Hf.
  - exact Hf.
  - apply lookup_insert_eq.
Qed.

Lemma np_map_spec (f : F -> F) (a : ndarray) (h : gmap nat (list (list F))) :
  exists b h',
    np_map f a h = (b, h')
    /\ h ⊆ h'
    /\ h !! base b = None
    /\ flipped b = false
    /\ h' !! base b = Some (map2d f (contents a h)).
Proof. apply (np_filter_spec (map2d f)). Qed.

(** An object whose buffer is allocated denotes the same array in every
    larger store. *)
Lemma contents_weaken (a : ndarray) (h h' : gmap nat (list (list F)))
      (v : list (list F)) :
  h !! base a = Some v -> h ⊆ h' -> contents a h' = contents a h.
Proof.
  intros Hv Hsub. unfold contents.
  rewrite Hv, (lookup_weaken _ _ _ _ Hv Hsub). reflexivity.
Qed.

Lemma contents_unflipped (a : ndarray) (h : gmap nat (list (list F)))
      (v : list (list F)) :
  h !! base a = Some v -> flipped a = false -> contents a h = v.
Proof. intros Hv Hf. unfold contents. rewrite Hv, Hf. reflexivity. Qed.

Lemma unallocated_weaken (l : nat) (h h' : gmap nat (list (list F))) :
  h ⊆ h' -> h' !! l = None -> h !! l = None.
Proof.
  intros Hsub Hn. destruct (h !! l) as [v |] eqn:E; [| reflexivity].
  rewrite (lookup_weaken _ _ _ _ E Hsub) in Hn. discriminate.
Qed.

(** One allocating step of a chain of binds: run it, name its result
    and its store, and keep what is known about them. *)
Ltac alloc_step b h' Hsub Hnew Hfl Hval :=
  unfold st_bind at 1;
  lazymatch goal with
  | |- context [np_map ?f ?a ?h] =>
      let Heq := fresh "Heq" in
      destruct (np_map_spec f a h) as (b & h' & Heq & Hsub & Hnew & Hfl & Hval);
      rewrite Heq; clear Heq
  | |- context [np_filter ?g ?a ?h] =>
      let Heq := fresh "Heq" in
      destruct (np_filter_spec g a h)
        as (b & h' & Heq & Hsub & Hnew & Hfl & Hval);
      rewrite Heq; clear Heq
  end.

Ltac read_step := unfold st_bind at 1, read at 1; cbv beta iota zeta.

(** C10 (no mutation of the input).  On the store of array buffers,
    [apply_image_effects] leaves every buffer that existed before the call
    as it was (the cached raw data in particular, which therefore denotes
    the same array afterwards), returns an object on a buffer that did not
    exist before, and that object denotes the array the by-value function
    computes from the raw data. *)
Theorem apply_image_effects_preserves_input (P : ProcessParams F)
        (data : ndarray) (h : gmap nat (list (list F)))
        (raw : list (list F)) :
  h !! base data = Some raw ->
  exists out h',
    apply_image_effects_st P data h = (out, h')
    /\ (forall l v, h !! l = Some v -> h' !! l = Some v)
    /\ contents data h' = contents data h
    /\ h !! base out = None
    /\ contents out h' = apply_image_effects P (contents data h).
Proof.
  intros Hraw. unfold apply_image_effects_st.
  alloc_step t1 h1 S1 N1 F1 V1.
  alloc_step t2 h2 S2 N2 F2 V2.
  alloc_step t3 h3 S3 N3 F3 V3.
  alloc_step t4 h4 S4 N4 F4 V4.
  alloc_step t5 h5 S5 N5 F5 V5.
  alloc_step d1 h6 S6 N6 F6 V6.
  read_step.
  alloc_step t6 h7 S7 N7 F7 V7.
  read_step.
  alloc_step d2 h8 S8 N8 F8 V8.
  alloc_step d3 h9 S9 N9 F9 V9.
  alloc_step d4 h10 S10 N10 F10 V10.
  alloc_step t7 h11 S11 N11 F11 V11.
  unfold np_flipud, st_ret. eexists _, _. split; [reflexivity |].
  assert (Hsub10 : h ⊆ h10).
  { etrans; [exact S1 |]; etrans; [exact S2 |]; etrans; [exact S3 |]; etrans; [exact S4 |]; etrans; [exact S5 |];
    etrans; [exact S6 |]; etrans; [exact S7 |]; etrans; [exact S8 |]; etrans; [exact S9 |];
    exact S10. }
  assert (Hsub : h ⊆ h11) by (etrans; [exact Hsub10 | exact S11]).
  split; [intros l v Hl; exact (lookup_weaken _ _ _ _ Hl Hsub) |].
  split; [exact (contents_weaken _ _ _ _ Hraw Hsub) |].
  split.
  - simpl. exact (unallocated_weaken _ h h10 Hsub10 N11).
  - (* the values, from the last allocation back to the raw data *)
    rewrite (contents_weaken d1 h6 h7 _ V6 S7) in V8.
    rewrite (contents_unflipped _ _ _ V1 F1) in V2.
    rewrite (contents_unflipped _ _ _ V2 F2) in V3.
    rewrite (contents_unflipped _ _ _ V3 F3) in V4.
    rewrite (contents_unflipped _ _ _ V4 F4) in V5.
    rewrite (contents_unflipped _ _ _ V5 F5) in V6.
    rewrite (contents_unflipped _ _ _ V6 F6) in V7, V8.
    rewrite (contents_unflipped _ _ _ V7 F7) in V8.
    rewrite (contents_unflipped _ _ _ V8 F8) in V9.
    rewrite (contents_unflipped _ _ _ V9 F9) in V10.
    rewrite (contents_unflipped _ _ _ V10 F10) in V11.
    unfold contents. simpl. rewrite V11, F11. simpl.
    rewrite !map2d_map2d.
    unfold apply_image_effects, preprocessing_blur, renormalize, s_curve.
    rewrite !map2d_map2d. reflexivity.
Qed.

End StoreFrame.

(** ** Exact arithmetic: the advance step and the cull *)

Section Rationals.
Variables qexp qsin qcos : Q -> Q.
#[local] Instance Qn : Num Q := Q_num qexp qsin qcos.

Lemma Qltb_lt (a b : Q) : Qltb a b = true <-> (a < b)%Q.
Proof.
  unfold Qltb. rewrite negb_true_iff. split.
  - intros Hb. apply Qnot_le_lt. intros Hle.
    apply Qle_bool_iff in Hle. congruence.
  - intros Hlt. destruct (Qle_bool b a) eqn:E; [| reflexivity].
    apply Qle_bool_iff in E. apply Qle_not_lt in E. contradiction.
Qed.

Lemma Qltb_ge (a b : Q) : Qltb a b = false <-> (b <= a)%Q.
Proof.
  unfold Qltb. rewrite negb_false_iff. apply Qle_bool_iff.
Qed.

Lemma minimum_Q (a b : Q) : minimum a b = if Qltb a b then a else b.
Proof. unfold minimum. simpl. rewrite orb_false_r. reflexivity. Qed.

Lemma maximum_Q (a b : Q) : maximum a b = if Qltb b a then a else b.
Proof. unfold maximum. simpl. rewrite orb_false_r. reflexivity. Qed.

Lemma minimum_le_l (a b : Q) : (minimum a b <= a)%Q.
Proof.
  rewrite minimum_Q. destruct (Qltb a b) eqn:E; [apply Qle_refl |].
  apply Qltb_ge in E. exact E.
Qed.

Lemma minimum_le_r (a b : Q) : (minimum a b <= b)%Q.
Proof.
  rewrite minimum_Q. destruct (Qltb a b) eqn:E; [| apply Qle_refl].
  apply Qltb_lt in E. apply Qlt_le_weak. exact E.
Qed.

Lemma minimum_cases (a b : Q) : minimum a b = a \/ minimum a b = b.
Proof. rewrite minimum_Q. destruct (Qltb a b); auto. Qed.

Lemma maximum_ge_l (a b : Q) : (a <= maximum a b)%Q.
Proof.
  rewrite maximum_Q. destruct (Qltb b a) eqn:E; [apply Qle_refl |].
  apply Qltb_ge in E. exact E.
Qed.

Lemma maximum_ge_r (a b : Q) : (b <= maximum a b)%Q.
Proof.
  rewrite maximum_Q. destruct (Qltb b a) eqn:E; [| apply Qle_refl].
  apply Qltb_lt in E. apply Qlt_le_weak. exact E.
Qed.

Lemma maximum_cases (a b : Q) : maximum a b = a \/ maximum a b = b.
Proof. rewrite maximum_Q. destruct (Qltb b a); auto. Qed.

(** Clamping lands between the bounds. *)
Lemma clip_range (x lo hi : Q) :
  (lo <= hi)%Q -> (lo <= clip x lo hi <= hi)%Q.
Proof.
  intros Hb. unfold clip. split; [| apply minimum_le_r].
  destruct (minimum_cases (maximum x lo) hi) as [-> | ->];
    [apply maximum_ge_r | exact Hb].
Qed.

(** Inside the bounds clamping changes nothing. *)
Lemma clip_inside (x lo hi : Q) :
  (lo <= x)%Q -> (x <= hi)%Q -> (clip x lo hi == x)%Q.
Proof.
  intros Hl Hh. unfold clip. rewrite minimum_Q, maximum_Q.
  destruct (Qltb lo x) eqn:E1.
  - destruct (Qltb x hi) eqn:E2; [reflexivity |].
    apply Qltb_ge in E2. apply Qle_antisym; assumption.
  - apply Qltb_ge in E1.
    assert (x == lo)%Q as Hx by (apply Qle_antisym; assumption).
    destruct (Qltb lo hi) eqn:E2; [symmetry; exact Hx |].
    apply Qltb_ge in E2. rewrite Hx. apply Qle_antisym; [exact E2 |].
    rewrite <- Hx. exact Hh.
Qed.

Lemma Qtrunc_range (q : Q) (n : Z) :
  (0 <= q)%Q -> (q <= inject_Z n)%Q -> 0 <= Qtrunc q <= n.
Proof.
  destruct q as [a d]. unfold Qle, Qtrunc, inject_Z. simpl.
  intros H0 Hn. rewrite Z.mul_1_r in H0.
  rewrite Z.quot_div_nonneg by lia. split.
  - apply Z.div_pos; lia.
  - apply Z.div_le_upper_bound; lia.
Qed.


(** *** Sampling the brightness buffer *)

Lemma np_index_in_range {A} (a : list A) (k : Z) :
  0 <= k < Z.of_nat (length a) ->
  exists v, np_index a k = inr v /\ a !! Z.to_nat k = Some v.
Proof.
  intros Hk. unfold np_index.
  destruct (k <? 0) eqn:E; [apply Z.ltb_lt in E; lia |].
  replace ((0 <=? k) && (k <? Z.of_nat (length a))) with true
    by (symmetry; apply andb_true_iff; split;
        [apply Z.leb_le | apply Z.ltb_lt]; lia).
  destruct (lookup_lt_is_Some_2 a (Z.to_nat k)) as [v Hv]; [lia |].
  rewrite Hv. eauto.
Qed.

Variable cfg : Config Q.

Lemma current_x_int_range (col_x : list Q) :
  1 <= CANVAS_SIZE cfg ->
  Forall (fun k => 0 <= k <= CANVAS_SIZE cfg - 1) (current_x_int cfg col_x).
Proof.
  intros HN. unfold current_x_int. apply List.Forall_forall. intros k Hk.
  apply in_map_iff in Hk as (x & <- & _).
  assert (0 <= clip x (of_Z 0) (of_Z (CANVAS_SIZE cfg - 1))
          <= inject_Z (CANVAS_SIZE cfg - 1))%Q as [Hlo Hhi].
  { apply clip_range. simpl. rewrite <- Zle_Qle. lia. }
  apply Qtrunc_range; assumption.
Qed.

Lemma fancy_index_lookup (a : list (list Q)) (rows cols : list Z)
      (out : list Q) :
  fancy_index a rows cols = inr out ->
  forall i r c, rows !! i = Some r -> cols !! i = Some c ->
  exists row v, np_index a r = inr row /\ np_index row c = inr v
                /\ out !! i = Some v.
Proof.
  unfold fancy_index. destruct (Nat.eqb _ _); [| discriminate].
  intros Hm i r c Hr Hc.
  destruct (rmapM_lookup _ _ _ Hm i (r, c)) as (v & Hv & Hf).
  { rewrite lookup_zip_with, Hr, Hc. reflexivity. }
  simpl in Hf. apply rbind_ok in Hf as (row & Hrow & Hf). eauto.
Qed.

Lemma sample_brightness_total (pixels : list (list Q)) (col_x : list Q) :
  1 <= CANVAS_SIZE cfg ->
  square (CANVAS_SIZE cfg) pixels ->
  Z.of_nat (length col_x) = CANVAS_SIZE cfg ->
  exists norm_b, sample_brightness cfg pixels col_x = inr norm_b.
Proof.
  intros HN [Hrows Hcols] Hlen. unfold sample_brightness, fancy_index.
  replace (Nat.eqb _ _) with true.
  2:{ symmetry. apply Nat.eqb_eq. unfold y_indices, current_x_int.
      rewrite length_seqZ, length_map. lia. }
  destruct (rmapM_total
              (fun rc => r <-- np_index pixels (fst rc) ;; np_index r (snd rc))
              (zip (y_indices cfg) (current_x_int cfg col_x)))
    as [out Hout].
  - intros [r c] Hin. apply list_elem_of_In in Hin. simpl.
    pose proof (elem_of_zip_l _ _ _ _ Hin) as Hr.
    pose proof (elem_of_zip_r _ _ _ _ Hin) as Hc.
    apply elem_of_seqZ in Hr.
    apply list_elem_of_In in Hc.
    pose proof (current_x_int_range col_x HN) as Hall.
    rewrite List.Forall_forall in Hall. specialize (Hall _ Hc).
    destruct (np_index_in_range pixels r) as (row & -> & Hrow); [lia |].
    simpl. rewrite List.Forall_forall in Hcols.
    assert (Z.of_nat (length row) = CANVAS_SIZE cfg) as Hl.
    { apply Hcols. apply list_elem_of_In. eapply list_elem_of_lookup_2.
      exact Hrow. }
    destruct (np_index_in_range row c) as (v & -> & _); [lia |]. eauto.
  - rewrite Hout. simpl. eauto.
Qed.


Lemma lookup_map {A B} (f : A -> B) (l : list A) (i : nat) :
  map f l !! i = f <$> l !! i.
Proof. exact (list_lookup_fmap f l i). Qed.

Lemma np_index_lookup {A} (a : list A) (k : Z) (v : A) :
  np_index a k = inr v -> 0 <= k -> a !! Z.to_nat k = Some v.
Proof.
  unfold np_index. intros Hi Hk.
  destruct (k <? 0) eqn:E; [apply Z.ltb_lt in E; lia |].
  destruct ((0 <=? k) && (k <? Z.of_nat (length a))); [| discriminate].
  destruct (a !! Z.to_nat k); [| discriminate]. injection Hi as ->.
  reflexivity.
Qed.

Lemma move_column_lookup (pixels : list (list Q)) (col_x moved : list Q) :
  1 <= CANVAS_SIZE cfg ->
  Z.of_nat (length col_x) = CANVAS_SIZE cfg ->
  move_column cfg pixels col_x = inr moved ->
  forall i x, col_x !! i = Some x ->
  exists row b,
    pixels !! i = Some row
    /\ row !! Z.to_nat (to_int (clip x (of_Z 0) (of_Z (CANVAS_SIZE cfg - 1))))
       = Some b
    /\ moved !! i = Some (moved_row cfg b x).
Proof.
  intros HN Hlen Hm i x Hx. unfold move_column in Hm.
  apply rbind_ok in Hm as (norm_b & Hs & Hm). injection Hm as <-.
  unfold sample_brightness in Hs.
  apply rbind_ok in Hs as (brightness & Hf & Hs). injection Hs as <-.
  assert (i < length col_x)%nat as Hi by (eapply lookup_lt_Some; eauto).
  destruct (fancy_index_lookup _ _ _ _ Hf i (Z.of_nat i)
              (to_int (clip x (of_Z 0) (of_Z (CANVAS_SIZE cfg - 1)))))
    as (row & b & Hrow & Hb & Hout).
  { unfold y_indices. rewrite lookup_seqZ. split; lia. }
  { unfold current_x_int. rewrite lookup_map, Hx. reflexivity. }
  pose proof (current_x_int_range col_x HN) as Hall.
  rewrite List.Forall_forall in Hall.
  assert (0 <= to_int (clip x (of_Z 0) (of_Z (CANVAS_SIZE cfg - 1)))
          <= CANVAS_SIZE cfg - 1) as Hk.
  { apply Hall. unfold current_x_int. apply in_map_iff. exists x.
    split; [reflexivity |].
    apply list_elem_of_In. eapply list_elem_of_lookup_2. exact Hx. }
  apply np_index_lookup in Hrow; [| lia]. rewrite Nat2Z.id in Hrow.
  apply np_index_lookup in Hb; [| lia].
  exists row, b. split; [exact Hrow |]. split; [exact Hb |].
  unfold final_speed. rewrite !lookup_zip_with, !lookup_map, Hx, Hout.
  reflexivity.
Qed.

Lemma move_column_length (pixels : list (list Q)) (col_x moved : list Q) :
  Z.of_nat (length col_x) = CANVAS_SIZE cfg ->
  move_column cfg pixels col_x = inr moved ->
  length moved = length col_x.
Proof.
  intros Hlen Hm. unfold move_column in Hm.
  apply rbind_ok in Hm as (norm_b & Hs & Hm). injection Hm as <-.
  unfold sample_brightness in Hs.
  apply rbind_ok in Hs as (brightness & Hf & Hs). injection Hs as <-.
  unfold fancy_index in Hf.
  destruct (Nat.eqb _ _) eqn:E; [| discriminate].
  apply Nat.eqb_eq in E. apply rmapM_length in Hf.
  rewrite length_zip_with in Hf. unfold final_speed.
  rewrite !length_zip_with, !length_map, Hf. unfold current_x_int in *.
  rewrite length_map in *. lia.
Qed.


(** *** Sums and the Gaussian filter *)

Lemma fold_add_acc (l : list Q) (a : Q) :
  (fold_left Qplus l a == a + fold_left Qplus l 0)%Q.
Proof.
  revert a. induction l as [| x l IH]; intros a; simpl.
  - ring.
  - rewrite (IH (a + x)%Q), (IH (0 + x)%Q). ring.
Qed.

Lemma np_sum_nil : np_sum (@nil Q) = 0%Q.
Proof. reflexivity. Qed.

Lemma np_sum_cons (x : Q) (l : list Q) : (np_sum (x :: l) == x + np_sum l)%Q.
Proof.
  change (np_sum (x :: l)) with (fold_left Qplus l (0 + x)%Q).
  change (np_sum l) with (fold_left Qplus l 0%Q).
  rewrite fold_add_acc. ring.
Qed.

Lemma np_sum_app (l k : list Q) : (np_sum (l ++ k) == np_sum l + np_sum k)%Q.
Proof.
  induction l as [| x l IH]; simpl.
  - rewrite np_sum_nil. ring.
  - rewrite !np_sum_cons, IH. ring.
Qed.

Lemma np_sum_rev (l : list Q) : (np_sum (rev l) == np_sum l)%Q.
Proof.
  induction l as [| x l IH]; simpl; [reflexivity |].
  rewrite np_sum_app, !np_sum_cons, np_sum_nil, IH. ring.
Qed.

Lemma np_sum_scaled (s : Q) (l : list Q) :
  (np_sum (map (fun p => p / s) l) == np_sum l / s)%Q.
Proof.
  induction l as [| x l IH]; simpl.
  - rewrite np_sum_nil. unfold Qdiv. ring.
  - rewrite !np_sum_cons, IH. simpl. unfold Qdiv. ring.
Qed.

Lemma np_sum_positive (l : list Q) :
  l <> [] -> Forall (fun p => 0 < p)%Q l -> (0 < np_sum l)%Q.
Proof.
  intros Hne Hpos. destruct l as [| x l]; [contradiction |].
  clear Hne. revert x Hpos. induction l as [| y l IH]; intros x Hpos.
  - rewrite np_sum_cons, np_sum_nil. inversion Hpos; subst. lra.
  - rewrite np_sum_cons. inversion Hpos as [| ? ? Hx Hrest]; subst.
    specialize (IH y Hrest). lra.
Qed.

(** A weighted sum with non-negative weights lies between the bounds of
    its terms, scaled by the total weight. *)
Lemma weighted_sum_bounds (lo hi : Q) (ws : list Q) :
  Forall (fun w => 0 <= w)%Q ws ->
  forall g : nat -> Q,
  (forall j, lo <= g j <= hi)%Q ->
  (lo * np_sum ws <= np_sum (imap (fun j w => mul w (g j)) ws)
   <= hi * np_sum ws)%Q.
Proof.
  induction 1 as [| w ws Hw Hws IH]; intros g Hg.
  - simpl. rewrite np_sum_nil. lra.
  - rewrite imap_cons, !np_sum_cons.
    specialize (IH (fun j => g (S j)) (fun j => Hg (S j))).
    change (imap ((fun j w0 => mul w0 (g j)) ∘ S) ws)
      with (imap (fun j w0 => mul w0 (g (S j))) ws).
    destruct (Hg O) as [Hl Hh].
    change (mul w (g O)) with (w * g O)%Q.
    assert (0 <= w * (g O - lo))%Q as H1 by (apply Qmult_le_0_compat; lra).
    assert (0 <= w * (hi - g O))%Q as H2 by (apply Qmult_le_0_compat; lra).
    cbv beta in IH.
    set (S1 := np_sum ws) in *.
    set (S2 := np_sum (imap (fun j w0 => mul w0 (g (S j))) ws)) in *.
    lra.
Qed.

Lemma reflect_index_range (n i : Z) :
  0 < n -> 0 <= reflect_index n i < n.
Proof.
  intros Hn. unfold reflect_index.
  pose proof (Z.mod_pos_bound i (2 * n) ltac:(lia)) as Hm.
  destruct (i mod (2 * n) <? n) eqn:E.
  - apply Z.ltb_lt in E. lia.
  - apply Z.ltb_ge in E. lia.
Qed.

Lemma nth_reflect_in (input : list Q) (i : Z) :
  input <> [] -> In (nth_reflect input i) input.
Proof.
  intros Hne. unfold nth_reflect. apply nth_In.
  assert (0 < Z.of_nat (length input)) as Hlen
    by (destruct input; [contradiction | simpl; lia]).
  pose proof (reflect_index_range _ i Hlen). lia.
Qed.

Lemma correlate1d_length (input weights : list Q) :
  length (correlate1d input weights) = length input.
Proof.
  unfold correlate1d. rewrite length_map, length_seqZ. lia.
Qed.

Lemma gaussian_filter1d_length (input : list Q) (sigma : Q) :
  length (gaussian_filter1d input sigma) = length input.
Proof. apply correlate1d_length. Qed.

(** With weights that are non-negative and sum to one, every output of the
    correlation is a convex combination of inputs. *)
Lemma correlate1d_bounds (lo hi : Q) (input weights : list Q) :
  Forall (fun w => 0 <= w)%Q weights ->
  (np_sum weights == 1)%Q ->
  Forall (fun x => lo <= x <= hi)%Q input ->
  Forall (fun y => lo <= y <= hi)%Q (correlate1d input weights).
Proof.
  intros Hw Hs Hin. destruct input as [| x0 input0] eqn:Einput.
  - unfold correlate1d. simpl. constructor.
  - rewrite <- Einput in *. unfold correlate1d. apply List.Forall_forall.
    intros y Hy. apply in_map_iff in Hy as (i & <- & _).
    (* the bound of the weighted sum, at total weight one *)
    pose proof (weighted_sum_bounds lo hi weights Hw
                  (fun j => nth_reflect input
                              (i + Z.of_nat j
                               - Z.of_nat (length weights) / 2))) as Hb.
    cbv beta in Hb. rewrite Hs, !Qmult_1_r in Hb. apply Hb.
    intros j. rewrite List.Forall_forall in Hin. apply Hin.
    apply nth_reflect_in. rewrite Einput. discriminate.
Qed.


Hypothesis qexp_pos : forall x, (0 < qexp x)%Q.

Lemma gaussian_kernel1d_weights (sigma : Q) (radius : Z) :
  0 <= radius ->
  Forall (fun w => 0 <= w)%Q (gaussian_kernel1d sigma radius)
  /\ (np_sum (gaussian_kernel1d sigma radius) == 1)%Q.
Proof using qexp_pos.
  intros Hr. unfold gaussian_kernel1d.
  set (phi_x := map _ (seqZ (- radius) (2 * radius + 1))).
  assert (Forall (fun p => 0 < p)%Q phi_x) as Hpos.
  { apply List.Forall_forall. intros p Hp. unfold phi_x in Hp.
    apply in_map_iff in Hp as (x & <- & _). apply qexp_pos. }
  assert (phi_x <> []) as Hne.
  { intros Hnil. apply (f_equal (@length Q)) in Hnil. unfold phi_x in Hnil.
    rewrite length_map, length_seqZ in Hnil. simpl in Hnil. lia. }
  pose proof (np_sum_positive phi_x Hne Hpos) as Hs. split.
  - apply List.Forall_forall. intros w Hw.
    apply in_map_iff in Hw as (p & <- & Hp).
    rewrite List.Forall_forall in Hpos. specialize (Hpos p Hp).
    change (0 <= p / np_sum phi_x)%Q. apply Qle_shift_div_l; lra.
  - rewrite np_sum_scaled. field. lra.
Qed.

Lemma Qtrunc_nonneg (q : Q) : (0 <= q)%Q -> 0 <= Qtrunc q.
Proof.
  destruct q as [a d]. unfold Qle, Qtrunc. simpl. intros H0.
  rewrite Z.mul_1_r in H0. apply Z.quot_pos; lia.
Qed.

Lemma gaussian_radius_nonneg (sigma : Q) :
  (0 < sigma)%Q -> 0 <= gaussian_radius sigma.
Proof.
  intros Hs. unfold gaussian_radius. apply Qtrunc_nonneg.
  change (0 <= 4 * sigma + (1 # 2))%Q. lra.
Qed.

(** The Gaussian filter keeps every bound of its input. *)
Lemma gaussian_filter1d_bounds (lo hi : Q) (input : list Q) (sigma : Q) :
  (0 < sigma)%Q ->
  Forall (fun x => lo <= x <= hi)%Q input ->
  Forall (fun y => lo <= y <= hi)%Q (gaussian_filter1d input sigma).
Proof using qexp_pos.
  intros Hs Hin. unfold gaussian_filter1d.
  destruct (gaussian_kernel1d_weights sigma (gaussian_radius sigma)
              (gaussian_radius_nonneg sigma Hs)) as [Hw Hsum].
  apply correlate1d_bounds.
  - apply List.Forall_forall. intros w Hin_w. apply in_rev in Hin_w.
    rewrite List.Forall_forall in Hw. apply Hw. exact Hin_w.
  - rewrite np_sum_rev. exact Hsum.
  - exact Hin.
Qed.

(** *** The minimum of a column *)

Lemma fold_minimum_le_acc (l : list Q) (a : Q) :
  (fold_left minimum l a <= a)%Q.
Proof.
  revert a. induction l as [| x l IH]; intros a; simpl; [apply Qle_refl |].
  eapply Qle_trans; [apply IH | apply minimum_le_l].
Qed.

Lemma fold_minimum_le (l : list Q) (a x : Q) :
  In x l -> (fold_left minimum l a <= x)%Q.
Proof.
  revert a. induction l as [| y l IH]; intros a Hin; [contradiction |].
  simpl. destruct Hin as [-> | Hin].
  - eapply Qle_trans; [apply fold_minimum_le_acc | apply minimum_le_r].
  - apply IH. exact Hin.
Qed.

Lemma fold_minimum_in (l : list Q) (a : Q) :
  fold_left minimum l a = a \/ In (fold_left minimum l a) l.
Proof.
  revert a. induction l as [| y l IH]; intros a; simpl; [left; reflexivity |].
  destruct (IH (minimum a y)) as [-> | Hin]; [| right; right; exact Hin].
  destruct (minimum_cases a y) as [-> | ->]; [left | right; left]; reflexivity.
Qed.

Lemma amin_le (col : list Q) (x : Q) : In x col -> (amin col <= x)%Q.
Proof.
  destruct col as [| a l]; [contradiction |]. simpl. intros [<- | Hin].
  - apply fold_minimum_le_acc.
  - apply fold_minimum_le. exact Hin.
Qed.

Lemma amin_in (col : list Q) : col <> [] -> In (amin col) col.
Proof.
  destruct col as [| a l]; [contradiction |]. intros _. simpl.
  destruct (fold_minimum_in l a) as [-> | Hin]; [left | right]; auto.
Qed.

(** The minimum is below a threshold exactly when some entry is. *)
Lemma amin_lt_iff (col : list Q) (t : Q) :
  col <> [] -> ((amin col < t)%Q <-> exists x, In x col /\ (x < t)%Q).
Proof.
  intros Hne. split.
  - intros Hlt. exists (amin col). split; [apply amin_in; exact Hne | exact Hlt].
  - intros (x & Hin & Hlt). eapply Qle_lt_trans; [apply amin_le; exact Hin |].
    exact Hlt.
Qed.

Lemma amin_ge_iff (col : list Q) (t : Q) :
  col <> [] -> ((t <= amin col)%Q <-> forall x, In x col -> (t <= x)%Q).
Proof.
  intros Hne. split.
  - intros Hle x Hin. eapply Qle_trans; [exact Hle | apply amin_le; exact Hin].
  - intros Hall. apply Hall. apply amin_in. exact Hne.
Qed.


(** *** The advance step *)

Lemma move_column_total (pixels : list (list Q)) (col_x : list Q) :
  1 <= CANVAS_SIZE cfg ->
  square (CANVAS_SIZE cfg) pixels ->
  Z.of_nat (length col_x) = CANVAS_SIZE cfg ->
  exists moved,
    move_column cfg pixels col_x = inr moved
    /\ advance_column cfg pixels col_x
       = inr (gaussian_filter1d moved (LINE_TENSION cfg)).
Proof.
  intros HN Hsq Hlen.
  destruct (sample_brightness_total pixels col_x HN Hsq Hlen) as [nb Hnb].
  unfold advance_column, move_column. rewrite Hnb. simpl. eauto.
Qed.

(** C8 (sampling stays inside the buffer).  Whatever rational positions a
    column of CANVAS_SIZE rows holds, negative and beyond the canvas
    included, every column index computed at line 344 lies in
    [0, CANVAS_SIZE - 1], the read of line 345 from a CANVAS_SIZE x
    CANVAS_SIZE buffer succeeds, lines 344-354 return the moved column,
    and the advance step raises no IndexError. *)
Theorem sampling_index_in_bounds (pixels : list (list Q)) (col_x : list Q) :
  1 <= CANVAS_SIZE cfg ->
  square (CANVAS_SIZE cfg) pixels ->
  Z.of_nat (length col_x) = CANVAS_SIZE cfg ->
  Forall (fun k => 0 <= k <= CANVAS_SIZE cfg - 1) (current_x_int cfg col_x)
  /\ (forall i x, col_x !! i = Some x ->
      current_x_int cfg col_x !! i
      = Some (Qtrunc (clip x 0%Q (inject_Z (CANVAS_SIZE cfg - 1)))))
  /\ (exists brightness,
        fancy_index pixels (y_indices cfg) (current_x_int cfg col_x)
        = inr brightness)
  /\ (exists moved, move_column cfg pixels col_x = inr moved)
  /\ advance_column cfg pixels col_x <> inl IndexError.
Proof.
  intros HN Hsq Hlen. split; [apply current_x_int_range; exact HN |].
  split.
  { intros i x Hx. unfold current_x_int. rewrite lookup_map, Hx. reflexivity. }
  split.
  - destruct (sample_brightness_total pixels col_x HN Hsq Hlen) as [nb Hnb].
    unfold sample_brightness in Hnb.
    apply rbind_ok in Hnb as (brightness & Hf & _). eauto.
  - destruct (move_column_total pixels col_x HN Hsq Hlen) as (m & Hm & Ha).
    split; [eauto |]. rewrite Ha. discriminate.
Qed.

(** C3 (the per-row update).  One advance step of a column first stores,
    in every row [i] at position [x],
    [x + BASE_SPEED * (1 - nb * FRICTION_FACTOR) + x * ACCELERATION], where
    [nb] is the buffer value at row [i] and at the column index obtained by
    clamping [x] to [0, CANVAS_SIZE - 1] and truncating, divided by 255;
    what the step returns is that column smoothed by the Gaussian filter.
    With FRICTION_FACTOR = 1, [nb = 1] and ACCELERATION = 0 the
    displacement before smoothing is 0. *)
Theorem advance_row_update (pixels : list (list Q)) (col_x : list Q) :
  1 <= CANVAS_SIZE cfg ->
  square (CANVAS_SIZE cfg) pixels ->
  Z.of_nat (length col_x) = CANVAS_SIZE cfg ->
  exists moved,
    move_column cfg pixels col_x = inr moved
    /\ (forall col', advance_column cfg pixels col_x = inr col' ->
        col' = gaussian_filter1d moved (LINE_TENSION cfg))
    /\ forall i x, col_x !! i = Some x ->
       exists row b,
         pixels !! i = Some row
         /\ row !! Z.to_nat
                    (Qtrunc (clip x 0%Q (inject_Z (CANVAS_SIZE cfg - 1))))
            = Some b
         /\ moved !! i = Some (moved_row cfg b x)
         /\ (moved_row cfg b x ==
             x + BASE_SPEED cfg * (1 - b / 255 * FRICTION_FACTOR cfg)
             + x * ACCELERATION cfg)%Q
         /\ ((FRICTION_FACTOR cfg == 1)%Q -> (b / 255 == 1)%Q ->
             (ACCELERATION cfg == 0)%Q ->
             (moved_row cfg b x - x == 0)%Q).
Proof.
  intros HN Hsq Hlen.
  destruct (move_column_total pixels col_x HN Hsq Hlen) as (moved & Hm & Ha).
  exists moved. split; [exact Hm |].
  split; [intros col' Hc; rewrite Ha in Hc; injection Hc as <-; reflexivity |].
  intros i x Hx.
  destruct (move_column_lookup pixels col_x moved HN Hlen Hm i x Hx)
    as (row & b & Hrow & Hb & Hmoved).
  exists row, b. split; [exact Hrow |]. split; [exact Hb |].
  split; [exact Hmoved |].
  change (moved_row cfg b x)
    with (x + (BASE_SPEED cfg * (1 - b / 255 * FRICTION_FACTOR cfg)
               + x * ACCELERATION cfg))%Q.
  split; [ring |].
  intros Hf Hb1 Ha0. rewrite Hf, Hb1, Ha0. ring.
Qed.

(** C4 (culling).  After the loop of a tick, with [advanced] the columns
    as advanced and smoothed, the new [particles_x] is [advanced] filtered
    by the test of line 360: a column stays exactly when its minimum is
    below CANVAS_SIZE; one whose positions are all at or beyond
    CANVAS_SIZE is dropped, one with a position below it is kept. *)
Theorem cull_iff_min_below_canvas (pixels : list (list Q)) (gen : bool)
        (s : Sim Q) (advanced : list (list Q)) :
  advanced_columns cfg pixels gen s = inr advanced ->
  exists s',
    animate cfg pixels gen s = inr s'
    /\ particles_x s' = List.filter (keep_column cfg) advanced
    /\ forall col, In col advanced -> col <> [] ->
       (In col (particles_x s')
        <-> (amin col < inject_Z (CANVAS_SIZE cfg))%Q)
       /\ ((forall x, In x col -> (inject_Z (CANVAS_SIZE cfg) <= x)%Q) ->
           ~ In col (particles_x s'))
       /\ ((exists x, In x col /\ (x < inject_Z (CANVAS_SIZE cfg))%Q) ->
           In col (particles_x s')).
Proof.
  intros Hadv. unfold animate. rewrite Hadv. simpl.
  eexists. split; [reflexivity |]. simpl. split; [reflexivity |].
  intros col Hin Hne.
  assert (In col (List.filter (keep_column cfg) advanced)
          <-> (amin col < inject_Z (CANVAS_SIZE cfg))%Q) as Hiff.
  { rewrite filter_In. unfold keep_column.
    change (ltb (amin col) (of_Z (CANVAS_SIZE cfg)))
      with (Qltb (amin col) (inject_Z (CANVAS_SIZE cfg))).
    rewrite Qltb_lt. tauto. }
  split; [exact Hiff |]. split.
  - intros Hall Hkept. apply Hiff in Hkept.
    apply (amin_ge_iff col _ Hne) in Hall. lra.
  - intros Hex. apply Hiff. apply (amin_lt_iff col _ Hne). exact Hex.
Qed.


(** *** Non-negative positions and the column minimum *)

Lemma exists_upper_bound (l : list Q) :
  exists hi, forall x, In x l -> (x <= hi)%Q.
Proof.
  induction l as [| a l [hi Hhi]].
  - exists 0%Q. intros x [].
  - destruct (Qlt_le_dec hi a) as [Hlt | Hle].
    + exists a. intros x [<- | Hin]; [apply Qle_refl |].
      specialize (Hhi x Hin). lra.
    + exists hi. intros x [<- | Hin]; [exact Hle | apply Hhi; exact Hin].
Qed.

Lemma gaussian_filter1d_lower (lo : Q) (input : list Q) (sigma : Q) :
  (0 < sigma)%Q ->
  (forall x, In x input -> (lo <= x)%Q) ->
  forall y, In y (gaussian_filter1d input sigma) -> (lo <= y)%Q.
Proof using qexp_pos.
  intros Hs Hlo y Hy. destruct (exists_upper_bound input) as [hi Hhi].
  pose proof (gaussian_filter1d_bounds lo hi input sigma Hs) as Hb.
  rewrite !List.Forall_forall in Hb. apply Hb; [| exact Hy].
  intros x Hx. split; [apply Hlo | apply Hhi]; exact Hx.
Qed.

(** Under the parameter ranges of the claim a row never moves left. *)
Lemma moved_row_ge (b x : Q) :
  (0 < BASE_SPEED cfg)%Q ->
  (0 <= FRICTION_FACTOR cfg <= 1)%Q ->
  (0 <= ACCELERATION cfg)%Q ->
  (0 <= b <= 255)%Q -> (0 <= x)%Q ->
  (x <= moved_row cfg b x)%Q.
Proof.
  intros Hbase [Hf0 Hf1] Hacc [Hb0 Hb1] Hx.
  change (moved_row cfg b x)
    with (x + (BASE_SPEED cfg * (1 - b / 255 * FRICTION_FACTOR cfg)
               + x * ACCELERATION cfg))%Q.
  assert (0 <= b / 255 <= 1)%Q as [Hn0 Hn1].
  { split; [apply Qle_shift_div_l | apply Qle_shift_div_r]; lra. }
  set (nb := (b / 255)%Q) in *.
  assert (0 <= (1 - nb) * FRICTION_FACTOR cfg)%Q
    by (apply Qmult_le_0_compat; lra).
  assert (0 <= BASE_SPEED cfg * (1 - nb * FRICTION_FACTOR cfg))%Q
    by (apply Qmult_le_0_compat; lra).
  assert (0 <= x * ACCELERATION cfg)%Q by (apply Qmult_le_0_compat; lra).
  lra.
Qed.

Section AdvanceBounds.
Variable pixels : list (list Q).
Variable col_x : list Q.
Hypothesis canvas_pos : 1 <= CANVAS_SIZE cfg.
Hypothesis pixels_square : square (CANVAS_SIZE cfg) pixels.
Hypothesis pixels_range : in_range 0 255 pixels.
Hypothesis base_pos : (0 < BASE_SPEED cfg)%Q.
Hypothesis friction_range : (0 <= FRICTION_FACTOR cfg <= 1)%Q.
Hypothesis accel_nonneg : (0 <= ACCELERATION cfg)%Q.
Hypothesis tension_pos : (0 < LINE_TENSION cfg)%Q.
Hypothesis col_rows : Z.of_nat (length col_x) = CANVAS_SIZE cfg.
Hypothesis col_nonneg : Forall (fun x => 0 <= x)%Q col_x.

(** Before smoothing, every row has moved right or stayed. *)
Lemma move_column_moves_right (moved : list Q) :
  move_column cfg pixels col_x = inr moved ->
  forall i x x', col_x !! i = Some x -> moved !! i = Some x' -> (x <= x')%Q.
Proof using canvas_pos pixels_range base_pos friction_range accel_nonneg
            col_rows col_nonneg.
  intros Hm i x x' Hx Hx'.
  destruct (move_column_lookup pixels col_x moved canvas_pos col_rows Hm i x Hx)
    as (row & b & Hrow & Hb & Hmoved).
  rewrite Hmoved in Hx'. injection Hx' as <-.
  apply moved_row_ge; try assumption.
  - unfold in_range in pixels_range.
    rewrite List.Forall_forall in pixels_range.
    assert (In row pixels) as Hin
      by (apply list_elem_of_In; eapply list_elem_of_lookup_2; exact Hrow).
    specialize (pixels_range row Hin).
    rewrite List.Forall_forall in pixels_range.
    apply pixels_range. apply list_elem_of_In.
    eapply list_elem_of_lookup_2. exact Hb.
  - rewrite List.Forall_forall in col_nonneg. apply col_nonneg.
    apply list_elem_of_In. eapply list_elem_of_lookup_2. exact Hx.
Qed.

(** A lower bound of the column bounds the advanced column too: the
    rows move right and the smoothing is a convex combination. *)
Lemma advance_column_lower (lo : Q) (col' : list Q) :
  (forall x, In x col_x -> (lo <= x)%Q) ->
  advance_column cfg pixels col_x = inr col' ->
  Z.of_nat (length col') = CANVAS_SIZE cfg
  /\ forall y, In y col' -> (lo <= y)%Q.
Proof using qexp_pos canvas_pos pixels_square pixels_range base_pos
            friction_range accel_nonneg tension_pos col_rows col_nonneg.
  intros Hlo Ha.
  destruct (move_column_total pixels col_x canvas_pos pixels_square col_rows)
    as (moved & Hm & Ha').
  rewrite Ha' in Ha. injection Ha as <-.
  pose proof (move_column_length pixels col_x moved col_rows Hm) as Hlm.
  split; [rewrite gaussian_filter1d_length, Hlm; exact col_rows |].
  apply (gaussian_filter1d_lower lo moved _ tension_pos).
  intros y Hy. apply list_elem_of_In in Hy.
  apply list_elem_of_lookup_1 in Hy as [i Hi].
  destruct (lookup_lt_is_Some_2 col_x i) as [x Hx].
  { rewrite <- Hlm. eapply lookup_lt_Some. exact Hi. }
  eapply Qle_trans;
    [apply Hlo | exact (move_column_moves_right moved Hm i x y Hx Hi)].
  apply list_elem_of_In. eapply list_elem_of_lookup_2. exact Hx.
Qed.

End AdvanceBounds.


(** *** A whole tick *)

Lemma rmapM_In_inv {A B} (f : A -> result B) (xs : list A) (ys : list B) :
  rmapM f xs = inr ys ->
  forall y, In y ys -> exists x, In x xs /\ f x = inr y.
Proof.
  revert ys. induction xs as [| x xs IH]; intros ys Hm y Hy; simpl in Hm.
  - injection Hm as <-. contradiction.
  - apply rbind_ok in Hm as (y0 & Hy0 & Hm).
    apply rbind_ok in Hm as (ys' & Hys & Hm). injection Hm as <-.
    destruct Hy as [<- | Hy].
    + exists x. split; [left; reflexivity | exact Hy0].
    + destruct (IH ys' Hys y Hy) as (x' & Hin & Hf).
      exists x'. split; [right; exact Hin | exact Hf].
Qed.

(** The invariant of [particles_x]: every column has CANVAS_SIZE rows and
    no negative position. *)
Definition columns_ok (cols : list (list Q)) : Prop :=
  Forall (fun col => Z.of_nat (length col) = CANVAS_SIZE cfg
                     /\ Forall (fun x => 0 <= x)%Q col) cols.

Lemma np_zeros_ok :
  0 <= CANVAS_SIZE cfg ->
  Z.of_nat (length (np_zeros (CANVAS_SIZE cfg))) = CANVAS_SIZE cfg
  /\ Forall (fun x => 0 <= x)%Q (np_zeros (CANVAS_SIZE cfg)).
Proof.
  intros HN. unfold np_zeros. rewrite length_replicate. split; [lia |].
  apply List.Forall_forall. intros x Hx. apply list_elem_of_In in Hx.
  apply elem_of_replicate in Hx as [-> _]. apply Qle_refl.
Qed.

(** Under the parameter ranges of C9, a tick raises nothing and keeps the
    invariant. *)
Lemma animate_keeps_columns_ok (pixels : list (list Q)) (gen : bool)
      (s : Sim Q) :
  1 <= CANVAS_SIZE cfg ->
  FRAME_INTERVAL cfg <> 0 ->
  square (CANVAS_SIZE cfg) pixels ->
  in_range 0 255 pixels ->
  (0 < BASE_SPEED cfg)%Q ->
  (0 <= FRICTION_FACTOR cfg <= 1)%Q ->
  (0 <= ACCELERATION cfg)%Q ->
  (0 < LINE_TENSION cfg)%Q ->
  columns_ok (particles_x s) ->
  exists s', animate cfg pixels gen s = inr s'
             /\ frame_count s' = frame_count s + 1
             /\ columns_ok (particles_x s').
Proof using qexp_pos.
  intros HN HT Hsq Hpx Hbase Hfric Hacc Hten Hok.
  assert (exists particles,
             spawn_columns cfg gen s = inr particles
             /\ columns_ok particles) as (particles & Hsp & Hpok).
  { unfold spawn_columns, spawns. destruct gen; simpl.
    - destruct (FRAME_INTERVAL cfg =? 0) eqn:E;
        [apply Z.eqb_eq in E; contradiction |].
      simpl. eexists. split; [reflexivity |].
      destruct ((frame_count s + 1) mod FRAME_INTERVAL cfg =? 0);
        [| exact Hok].
      unfold columns_ok. apply Forall_app. split; [exact Hok |].
      constructor; [apply np_zeros_ok; lia | constructor].
    - eexists. split; [reflexivity | exact Hok]. }
  unfold columns_ok in Hpok. rewrite List.Forall_forall in Hpok.
  destruct (rmapM_total (advance_column cfg pixels) particles)
    as [advanced Hadv].
  { intros col Hcol. destruct (Hpok col Hcol) as [Hlen _].
    destruct (move_column_total pixels col HN Hsq Hlen) as (m & _ & Ha).
    eauto. }
  unfold animate, advanced_columns. rewrite Hsp. simpl. rewrite Hadv. simpl.
  eexists. split; [reflexivity |]. simpl. split; [reflexivity |].
  unfold columns_ok. apply List.Forall_forall. intros col' Hcol'.
  apply filter_In in Hcol' as [Hcol' _].
  destruct (rmapM_In_inv _ _ _ Hadv col' Hcol') as (col & Hcol & Hf).
  destruct (Hpok col Hcol) as [Hlen Hnn].
  destruct (advance_column_lower pixels col HN Hsq Hpx Hbase Hfric Hacc Hten
              Hlen Hnn 0%Q col') as [Hlen' Hnn'].
  - rewrite List.Forall_forall in Hnn. exact Hnn.
  - exact Hf.
  - split; [exact Hlen' | apply List.Forall_forall; exact Hnn'].
Qed.

(** *** The ranges of the raw field and of the buffer *)

Lemma fold_maximum_ge_acc (l : list Q) (a : Q) :
  (a <= fold_left maximum l a)%Q.
Proof.
  revert a. induction l as [| x l IH]; intros a; simpl; [apply Qle_refl |].
  eapply Qle_trans; [apply maximum_ge_l | apply IH].
Qed.

Lemma fold_maximum_ge (l : list Q) (a x : Q) :
  In x l -> (x <= fold_left maximum l a)%Q.
Proof.
  revert a. induction l as [| y l IH]; intros a Hin; [contradiction |].
  simpl. destruct Hin as [-> | Hin].
  - eapply Qle_trans; [apply maximum_ge_r | apply fold_maximum_ge_acc].
  - apply IH. exact Hin.
Qed.

Lemma amax_ge (col : list Q) (x : Q) : In x col -> (x <= amax col)%Q.
Proof.
  destruct col as [| a l]; [contradiction |]. simpl. intros [<- | Hin].
  - apply fold_maximum_ge_acc.
  - apply fold_maximum_ge. exact Hin.
Qed.

Lemma in_range_map2d (f : Q -> Q) (lo hi lo' hi' : Q) (m : list (list Q)) :
  (forall v, lo <= v <= hi -> lo' <= f v <= hi')%Q ->
  in_range lo hi m -> in_range lo' hi' (map2d f m).
Proof.
  intros Hf Hm. unfold in_range, map2d in *.
  rewrite List.Forall_forall in *. intros r Hr.
  apply in_map_iff in Hr as (r0 & <- & Hr0). specialize (Hm r0 Hr0).
  rewrite List.Forall_forall in *. intros v Hv.
  apply in_map_iff in Hv as (v0 & <- & Hv0). apply Hf, Hm. exact Hv0.
Qed.

(** After the min-max stretch of a non-constant array every value lies in
    [0,1]. *)
Lemma renormalize_range (data : list (list Q)) :
  (amin2d data < amax2d data)%Q -> in_range 0 1 (renormalize data).
Proof.
  intros Hlt. unfold renormalize, in_range, map2d.
  apply List.Forall_forall. intros r Hr.
  apply in_map_iff in Hr as (r0 & <- & Hr0).
  apply List.Forall_forall. intros y Hy.
  apply in_map_iff in Hy as (v & <- & Hv).
  assert (In v (concat data)) as Hin
    by (apply in_concat; exists r0; split; assumption).
  pose proof (amin_le (concat data) v Hin) as Hlo.
  pose proof (amax_ge (concat data) v Hin) as Hhi.
  fold (amin2d data) in Hlo. fold (amax2d data) in Hhi.
  change ((0 <= (v - amin2d data) / (amax2d data - amin2d data) <= 1)%Q).
  split; [apply Qle_shift_div_l | apply Qle_shift_div_r]; lra.
Qed.

Lemma nth_in_range (lo hi : Q) (l : list Q) (i : nat) :
  (lo <= 0 <= hi)%Q ->
  Forall (fun v => lo <= v <= hi)%Q l ->
  (lo <= nth i l 0 <= hi)%Q.
Proof.
  intros H0 Hl. destruct (nth_in_or_default i l 0%Q) as [Hin | ->];
    [| exact H0].
  rewrite List.Forall_forall in Hl. apply Hl. exact Hin.
Qed.

Lemma preprocessing_blur_range (lo hi : Q) (P : ProcessParams Q)
      (data : list (list Q)) :
  (lo <= 0 <= hi)%Q ->
  (0 < blur_sigma P)%Q ->
  in_range lo hi data -> in_range lo hi (preprocessing_blur P data).
Proof using qexp_pos.
  intros H0 Hs Hd. unfold preprocessing_blur.
  assert (in_range lo hi (gaussian_filter1d_axis0 data (blur_sigma P)))
    as Haxis0.
  { unfold in_range, gaussian_filter1d_axis0.
    apply List.Forall_forall. intros r Hr.
    apply in_map_iff in Hr as (i & <- & _).
    apply List.Forall_forall. intros y Hy.
    apply in_map_iff in Hy as (c & <- & Hc).
    apply in_map_iff in Hc as (j & <- & _).
    apply (nth_in_range lo hi _ i H0).
    apply gaussian_filter1d_bounds; [exact Hs |].
    unfold column. apply List.Forall_forall. intros v Hv.
    apply in_map_iff in Hv as (r0 & <- & Hr0).
    apply (nth_in_range lo hi _ j H0).
    unfold in_range in Hd. rewrite List.Forall_forall in Hd.
    apply Hd. exact Hr0. }
  unfold in_range, gaussian_filter1d_axis1 in *.
  apply List.Forall_forall. intros r Hr.
  apply in_map_iff in Hr as (r0 & <- & Hr0).
  apply gaussian_filter1d_bounds; [exact Hs |].
  rewrite List.Forall_forall in Haxis0. apply Haxis0. exact Hr0.
Qed.

(** What the code does for the range of the buffer: when the logistic
    step leaves an array that is not constant, every value of the buffer
    lies in [0,255]. *)
Lemma apply_image_effects_range (P : ProcessParams Q)
      (data : list (list Q)) :
  (0 < blur_sigma P)%Q ->
  (amin2d (s_curve P data) < amax2d (s_curve P data))%Q ->
  in_range 0 255 (apply_image_effects P data).
Proof using qexp_pos.
  intros Hs Hlt. unfold apply_image_effects.
  assert (in_range 0 255
            (map2d (fun v => mul v (of_Z 255))
                   (preprocessing_blur P (renormalize (s_curve P data)))))
    as Hr.
  { apply (in_range_map2d _ 0 1).
    - intros v [Hv0 Hv1]. change (0 <= v * 255 <= 255)%Q. lra.
    - apply preprocessing_blur_range; [lra | exact Hs |].
      apply renormalize_range. exact Hlt. }
  unfold in_range, flipud in *. apply List.Forall_forall. intros r Hr0.
  apply in_rev in Hr0. rewrite List.Forall_forall in Hr. apply Hr. exact Hr0.
Qed.

Context {image : Type} {ext : Extern Q image}.

(** The raw field ends with [np.clip(data, 0, 1)]: for every image, every
    value lies in [0,1]. *)
Lemma normalize_image_range (img : image) :
  in_range 0 1 (normalize_image cfg img).
Proof.
  unfold normalize_image.
  set (data := if ltb _ _ then _ else _).
  unfold in_range, map2d. apply List.Forall_forall. intros r Hr.
  apply in_map_iff in Hr as (r0 & <- & _).
  apply List.Forall_forall. intros y Hy.
  apply in_map_iff in Hy as (v & <- & _).
  apply (clip_range v 0 1). lra.
Qed.

Lemma load_image_data_range (image_path : string) (raw : list (list Q)) :
  load_image_data cfg image_path = inr raw -> in_range 0 1 raw.
Proof.
  unfold load_image_data. intros Hl.
  apply rbind_ok in Hl as (img & _ & Hl). injection Hl as <-.
  apply normalize_image_range.
Qed.

End Rationals.


(** ** The image loader *)

Section Loader.
Context {F image : Type} {num : Num F} {ext : Extern F image}.
Variable cfg : Config F.

Lemma map2d_square {A B} (f : A -> B) (n : Z) (m : list (list A)) :
  square n m -> square n (map2d f m).
Proof.
  intros [Hrows Hcols]. unfold map2d. split.
  - rewrite length_map. exact Hrows.
  - rewrite List.Forall_forall in *. intros r Hr.
    apply in_map_iff in Hr as (r0 & <- & Hr0). rewrite length_map.
    apply Hcols. exact Hr0.
Qed.

(** The sample of the test texture at row [i] and column [j]:
    [sin(x[j] * 10) * cos(y[i] * 5) * 127 + 128] as an 8-bit integer, with
    [x] and [y] the grid [linspace(0, 1, CANVAS_SIZE)]. *)
Lemma default_texture_lookup (i j : nat) (xv yv : F) :
  linspace (of_Z 0) (of_Z 1) (CANVAS_SIZE cfg) !! i = Some yv ->
  linspace (of_Z 0) (of_Z 1) (CANVAS_SIZE cfg) !! j = Some xv ->
  exists row,
    default_texture cfg !! i = Some row
    /\ row !! j
       = Some (to_uint8 (add (mul (mul (np_sin (mul xv (of_Z 10)))
                                       (np_cos (mul yv (of_Z 5))))
                                  (of_Z 127))
                             (of_Z 128))).
Proof.
  intros Hy Hx. unfold default_texture. eexists. split.
  - rewrite lookup_map, Hy. reflexivity.
  - rewrite lookup_map, Hx. reflexivity.
Qed.

(** The handler of [load_image_data] lets no [FileNotFoundError] and no
    [AttributeError] through. *)
Lemma load_image_data_raises (image_path : string) (e : exn) :
  load_image_data cfg image_path = inl e ->
  e <> FileNotFoundError /\ e <> AttributeError.
Proof.
  unfold load_image_data.
  destruct (String.eqb image_path EmptyString); simpl.
  - discriminate.
  - destruct (Image_open image_path) as [e0 | img]; simpl;
      [| discriminate].
    destruct e0; simpl; intros He; try discriminate;
      injection He as <-; split; discriminate.
Qed.

(** The grid [np.linspace(0, 1, CANVAS_SIZE)]: point [k] is
    [k * ((1 - 0) / (CANVAS_SIZE - 1)) + 0], and the last point is [1]. *)
Lemma linspace_lookup (k : nat) :
  Z.of_nat k < CANVAS_SIZE cfg ->
  linspace (of_Z 0) (of_Z 1) (CANVAS_SIZE cfg) !! k
  = Some (if (1 <? CANVAS_SIZE cfg) && (Z.of_nat k =? CANVAS_SIZE cfg - 1)
          then of_Z 1
          else if 0 <? CANVAS_SIZE cfg - 1
               then add (mul (of_Z (Z.of_nat k))
                             (div (sub (of_Z 1) (of_Z 0))
                                  (of_Z (CANVAS_SIZE cfg - 1))))
                        (of_Z 0)
               else add (mul (of_Z (Z.of_nat k)) (sub (of_Z 1) (of_Z 0)))
                        (of_Z 0)).
Proof.
  intros Hk. unfold linspace. rewrite lookup_map.
  rewrite (proj2 (lookup_seqZ 0 (CANVAS_SIZE cfg) k (Z.of_nat k)))
    by (split; lia).
  reflexivity.
Qed.


End Loader.

(** ** binary64: absorbing NaNs *)

Lemma float_is_nan (x : float) : Prim2SF x = S754_nan -> x = nan.
Proof. intros Hx. apply Prim2SF_inj. rewrite Hx. reflexivity. Qed.

Lemma float_mul_nan_r (w : float) : PrimFloat.mul w nan = nan.
Proof.
  apply float_is_nan. rewrite mul_spec.
  change (Prim2SF nan) with S754_nan.
  destruct (Prim2SF w) as [s | s | | s m e]; reflexivity.
Qed.

Lemma float_add_nan_r (x : float) : PrimFloat.add x nan = nan.
Proof.
  apply float_is_nan. rewrite add_spec.
  change (Prim2SF nan) with S754_nan.
  destruct (Prim2SF x) as [s | s | | s m e]; reflexivity.
Qed.

Lemma float_add_nan_l (x : float) : PrimFloat.add nan x = nan.
Proof.
  apply float_is_nan. rewrite add_spec. reflexivity.
Qed.

(** [c - c] is a zero, or a NaN when [c] is not finite. *)
Lemma float_sub_self (c : float) :
  (exists s, Prim2SF (PrimFloat.sub c c) = S754_zero s)
  \/ Prim2SF (PrimFloat.sub c c) = S754_nan.
Proof.
  rewrite sub_spec. destruct (Prim2SF c) as [s | s | | s m e].
  - left. destruct s; eexists; reflexivity.
  - right. destruct s; reflexivity.
  - right. reflexivity.
  - left. exists false. unfold SF64sub, SFsub.
    rewrite Z.min_id, Z.sub_diag. reflexivity.
Qed.

(** Zero over zero: the quotient of line 140 on a constant array. *)
Lemma float_sub_self_div (c : float) :
  PrimFloat.div (PrimFloat.sub c c) (PrimFloat.sub c c) = nan.
Proof.
  apply float_is_nan. rewrite div_spec.
  destruct (float_sub_self c) as [[s ->] | ->]; reflexivity.
Qed.

(** ** Constant arrays through the brightness processor *)

Section Constant.
Context {F : Type} {num : Num F}.

Lemma minimum_same (c : F) : minimum c c = c.
Proof. unfold minimum. destruct (_ || _); reflexivity. Qed.

Lemma maximum_same (c : F) : maximum c c = c.
Proof. unfold maximum. destruct (_ || _); reflexivity. Qed.

Lemma fold_same (op : F -> F -> F) (c : F) (l : list F) :
  op c c = c -> (forall x, In x l -> x = c) -> fold_left op l c = c.
Proof.
  intros Hop. induction l as [| a l IH]; intros Hl; simpl; [reflexivity |].
  rewrite (Hl a (or_introl eq_refl)), Hop. apply IH.
  intros x Hx. apply Hl. right. exact Hx.
Qed.

Lemma concat_uniform (a b : nat) (c x : F) :
  In x (concat (replicate a (replicate b c))) -> x = c.
Proof.
  intros Hx. apply in_concat in Hx as (r & Hr & Hx).
  apply list_elem_of_In, elem_of_replicate in Hr as [-> _].
  apply list_elem_of_In, elem_of_replicate in Hx as [-> _]. reflexivity.
Qed.

(** The minimum and the maximum of a constant array are its value. *)
Lemma amin2d_uniform (a b : nat) (c : F) :
  amin2d (replicate (S a) (replicate (S b) c)) = c.
Proof.
  unfold amin2d, amin. simpl.
  apply fold_same; [apply minimum_same |].
  intros x Hx. apply (concat_uniform (S a) (S b) c). simpl. right. exact Hx.
Qed.

Lemma amax2d_uniform (a b : nat) (c : F) :
  amax2d (replicate (S a) (replicate (S b) c)) = c.
Proof.
  unfold amax2d, amax. simpl.
  apply fold_same; [apply maximum_same |].
  intros x Hx. apply (concat_uniform (S a) (S b) c). simpl. right. exact Hx.
Qed.

Lemma map_replicate {A B} (f : A -> B) (n : nat) (x : A) :
  map f (replicate n x) = replicate n (f x).
Proof. induction n; simpl; [reflexivity | f_equal; assumption]. Qed.

Lemma map2d_uniform (f : F -> F) (a b : nat) (c : F) :
  map2d f (replicate a (replicate b c)) = replicate a (replicate b (f c)).
Proof. unfold map2d. rewrite !map_replicate. reflexivity. Qed.

Lemma map_seq_const {B} (f : nat -> B) (n : nat) (c : B) :
  (forall i, (i < n)%nat -> f i = c) -> map f (seq 0 n) = replicate n c.
Proof.
  intros Hf. symmetry. apply replicate_as_elem_of. split.
  - rewrite length_map, length_seq. reflexivity.
  - intros y Hy. apply list_elem_of_In, in_map_iff in Hy as (i & <- & Hi).
    apply in_seq in Hi. apply Hf. lia.
Qed.

(** On a constant array line 140 computes [(c - c) / (c - c)] everywhere. *)
Lemma renormalize_uniform (a b : nat) (c : F) :
  renormalize (replicate (S a) (replicate (S b) c))
  = replicate (S a) (replicate (S b) (div (sub c c) (sub c c))).
Proof.
  unfold renormalize. rewrite amin2d_uniform, amax2d_uniform.
  apply (map2d_uniform (fun v => div (sub v c) (sub c c))).
Qed.

(** An element that absorbs sums and products (a NaN) passes through the
    blur, the scaling and the flip. *)
Variable z : F.
Hypothesis mul_absorbs : forall w, mul w z = z.
Hypothesis add_absorbs_r : forall x, add x z = z.
Hypothesis add_absorbs_l : forall x, add z x = z.

Lemma np_sum_absorbed (l : list F) :
  l <> [] -> (forall x, In x l -> x = z) -> np_sum l = z.
Proof using add_absorbs_r add_absorbs_l.
  destruct l as [| a l]; [contradiction |]. intros _ Hl.
  unfold np_sum. simpl. rewrite (Hl a (or_introl eq_refl)), add_absorbs_r.
  apply fold_same; [apply add_absorbs_r |].
  intros x Hx. apply Hl. right. exact Hx.
Qed.

Lemma nth_reflect_uniform (n : nat) (i : Z) :
  (0 < n)%nat -> nth_reflect (replicate n z) i = z.
Proof.
  intros Hn. unfold nth_reflect. rewrite length_replicate.
  pose proof (reflect_index_range (Z.of_nat n) i ltac:(lia)) as Hr.
  apply nth_lookup_Some. apply lookup_replicate_2. lia.
Qed.

Lemma correlate1d_uniform (n : nat) (weights : list F) :
  weights <> [] -> (0 < n)%nat ->
  correlate1d (replicate n z) weights = replicate n z.
Proof using mul_absorbs add_absorbs_r add_absorbs_l.
  intros Hw Hn. symmetry. apply replicate_as_elem_of. split.
  - unfold correlate1d.
    rewrite length_map, length_seqZ, length_replicate. lia.
  - intros y Hy. unfold correlate1d in Hy.
    apply list_elem_of_In, in_map_iff in Hy as (i & <- & _).
    apply np_sum_absorbed.
    + intros Hnil. apply (f_equal (@length F)) in Hnil.
      rewrite length_imap in Hnil. destruct weights; [contradiction |].
      discriminate.
    + intros x Hx. apply list_elem_of_In in Hx.
      apply elem_of_lookup_imap_1 in Hx as (j & w & -> & _).
      rewrite nth_reflect_uniform by exact Hn. apply mul_absorbs.
Qed.

Lemma gaussian_filter1d_uniform (n : nat) (sigma : F) :
  0 <= gaussian_radius sigma -> (0 < n)%nat ->
  gaussian_filter1d (replicate n z) sigma = replicate n z.
Proof using mul_absorbs add_absorbs_r add_absorbs_l.
  intros Hr Hn. unfold gaussian_filter1d. apply correlate1d_uniform; [| exact Hn].
  intros Hnil. apply (f_equal (@length F)) in Hnil.
  unfold gaussian_kernel1d in Hnil.
  rewrite length_rev, !length_map, length_seqZ in Hnil. simpl in Hnil. lia.
Qed.

Lemma preprocessing_blur_uniform (P : ProcessParams F) (a b : nat) :
  0 <= gaussian_radius (blur_sigma P) ->
  preprocessing_blur P (replicate (S a) (replicate (S b) z))
  = replicate (S a) (replicate (S b) z).
Proof using mul_absorbs add_absorbs_r add_absorbs_l.
  intros Hr. unfold preprocessing_blur.
  assert (gaussian_filter1d_axis0 (replicate (S a) (replicate (S b) z))
                                  (blur_sigma P)
          = replicate (S a) (replicate (S b) z)) as ->.
  { unfold gaussian_filter1d_axis0.
    change (ncols (replicate (S a) (replicate (S b) z)))
      with (length (replicate (S b) z)).
    unfold nrows. rewrite !length_replicate.
    rewrite (map_seq_const _ (S b) (replicate (S a) z)).
    - apply map_seq_const. intros i Hi. rewrite map_replicate.
      f_equal. apply nth_lookup_Some. apply lookup_replicate_2. exact Hi.
    - intros j Hj. unfold column. rewrite map_replicate.
      rewrite (nth_lookup_Some _ _ _ z) by (apply lookup_replicate_2; exact Hj).
      apply gaussian_filter1d_uniform; [exact Hr | lia]. }
  unfold gaussian_filter1d_axis1. rewrite map_replicate.
  rewrite gaussian_filter1d_uniform by (try exact Hr; lia). reflexivity.
Qed.

Lemma flipud_uniform (a b : nat) (c : F) :
  flipud (replicate a (replicate b c)) = replicate a (replicate b c).
Proof.
  unfold flipud. symmetry. apply replicate_as_elem_of. split.
  - rewrite length_rev, length_replicate. reflexivity.
  - intros y Hy. apply list_elem_of_In, in_rev in Hy.
    apply list_elem_of_In, elem_of_replicate in Hy as [-> _]. reflexivity.
Qed.

End Constant.

(** ** binary64: a constant raw field *)

Section Binary64.
Variables fexp fsin fcos : float -> float.
#[local] Instance Fn : Num float := float_num fexp fsin fcos.

Lemma constant_field_through_effects (steepness midpoint c : float) :
  renormalize (s_curve (contrast_params steepness midpoint)
                       (uniform_field 512 c))
  = uniform_field 512 nan
  /\ apply_image_effects (contrast_params steepness midpoint)
                         (uniform_field 512 c)
     = uniform_field 512 nan.
Proof.
  unfold uniform_field. change (Z.to_nat 512) with (S 511).
  assert (renormalize (s_curve (contrast_params steepness midpoint)
                               (replicate (S 511) (replicate (S 511) c)))
          = replicate (S 511) (replicate (S 511) nan)) as Hre.
  { unfold s_curve. rewrite map2d_uniform, renormalize_uniform.
    change (@div float Fn) with PrimFloat.div.
    change (@sub float Fn) with PrimFloat.sub.
    rewrite float_sub_self_div. reflexivity. }
  split; [exact Hre |].
  unfold apply_image_effects. rewrite Hre.
  rewrite (preprocessing_blur_uniform (num := Fn) nan
             (float_mul_nan_r : forall w, @mul float Fn w nan = nan)
             (float_add_nan_r : forall x, @add float Fn x nan = nan)
             (float_add_nan_l : forall x, @add float Fn nan x = nan)).
  - rewrite map2d_uniform, flipud_uniform.
    change (@mul float Fn nan (of_Z 255)) with (PrimFloat.mul nan 255).
    reflexivity.
  - vm_compute. discriminate.
Qed.

(** C2 (the degenerate re-normalization), the code against the claim.  On
    a constant raw field (any value [c], any contrast curve; the initial
    blur), the logistic step gives a constant array, line 140 divides
    [c' - c'] by [c' - c'], and every entry of the re-normalized array and
    of the returned buffer is a NaN: there is no guard for max == min.
    The example of the claim, the uniform 0.5 field with midpoint 0.5, is
    the last conjunct. *)
Theorem renormalize_divides_zero_by_zero (steepness midpoint c : float) :
  renormalize (s_curve (contrast_params steepness midpoint)
                       (uniform_field 512 c))
  = uniform_field 512 nan
  /\ apply_image_effects (contrast_params steepness midpoint)
                         (uniform_field 512 c)
     = uniform_field 512 nan
  /\ apply_image_effects (contrast_params 9%float 0.5%float)
                         (uniform_field 512 0.5%float)
     = uniform_field 512 nan.
Proof.
  destruct (constant_field_through_effects steepness midpoint c) as [H1 H2].
  split; [exact H1 |]. split; [exact H2 |].
  apply constant_field_through_effects.
Qed.

(** C6 (range of the buffer), the code against the claim.  The uniform
    0.5 raw field has its values in [0,1] and the initial parameters are
    valid, and yet no entry [v] of the buffer satisfies [0 <= v <= 255]:
    every entry is the NaN of the unguarded division of line 140. *)
Theorem constant_raw_field_leaves_range :
  let raw := uniform_field 512 0.5%float in
  let buffer := apply_image_effects default_process_params raw in
  Forall (Forall (fun v => PrimFloat.leb 0 v && PrimFloat.leb v 1 = true)) raw
  /\ buffer = uniform_field 512 nan
  /\ Forall (Forall (fun v => PrimFloat.leb 0 v && PrimFloat.leb v 255
                             = false)) buffer.
Proof.
  intros raw buffer.
  assert (buffer = uniform_field 512 nan) as Hb
    by apply (constant_field_through_effects (of_Z 9) (div (of_Z 3) (of_Z 10))).
  split; [| split; [exact Hb |]].
  - apply Forall_replicate, Forall_replicate. reflexivity.
  - rewrite Hb. apply Forall_replicate, Forall_replicate. reflexivity.
Qed.

End Binary64.

(** ** binary64: rounding in the smoothing *)


(** ** The theorems at concrete inputs *)

Lemma Qsquare_nonneg (y : Q) : (0 <= y * y)%Q.
Proof.
  destruct (Qlt_le_dec y 0) as [Hneg | Hpos].
  - assert (y * y == (- y) * (- y))%Q as -> by ring.
    apply Qmult_le_0_compat; lra.
  - apply Qmult_le_0_compat; exact Hpos.
Qed.

Lemma pade_exp_pos (x : Q) : (0 < pade_exp x)%Q.
Proof.
  unfold pade_exp.
  pose proof (Qsquare_nonneg (x + 3)) as Hn.
  pose proof (Qsquare_nonneg (x - 3)) as Hd.
  assert (0 < 12 + 6 * x + x * x)%Q by lra.
  assert (0 < 12 - 6 * x + x * x)%Q by lra.
  apply Qlt_shift_div_l; lra.
Qed.

Lemma grey_pixels_square : square 4 grey_pixels.
Proof. split; [reflexivity | repeat constructor]. Qed.

Lemma grey_pixels_in_range : in_range 0 255 grey_pixels.
Proof. repeat constructor; vm_compute; discriminate. Qed.

Section Witnesses.
#[local] Existing Instance Q_sample.

Lemma sampling_index_in_bounds_witness :
  current_x_int small_config stray_column = [0; 1; 2; 3]
  /\ Forall (fun k => 0 <= k <= CANVAS_SIZE small_config - 1)
            (current_x_int small_config stray_column)
  /\ exists moved, move_column small_config grey_pixels stray_column
                   = inr moved.
Proof.
  split; [reflexivity |].
  destruct (sampling_index_in_bounds pade_exp taylor_sin taylor_cos
              small_config grey_pixels stray_column)
    as (Hrange & _ & _ & Hmoved & _).
  - simpl. lia.
  - exact grey_pixels_square.
  - reflexivity.
  - split; [exact Hrange | exact Hmoved].
Defined.

Lemma advance_row_update_witness :
  exists moved,
    move_column small_config grey_pixels sample_column = inr moved
    /\ moved !! 2%nat = Some (moved_row small_config 128%Q (5 # 2)%Q).
Proof.
  destruct (advance_row_update pade_exp taylor_sin taylor_cos
              small_config grey_pixels sample_column)
    as (moved & Hm & _ & Hrows).
  - simpl. lia.
  - exact grey_pixels_square.
  - reflexivity.
  - exists moved. split; [exact Hm |].
    destruct (Hrows 2%nat (5 # 2)%Q eq_refl)
      as (row & b & Hrow & Hb & Hmoved & _).
    injection Hrow as <-. injection Hb as <-. exact Hmoved.
Defined.

Lemma cull_iff_min_below_canvas_witness :
  exists advanced s',
    advanced_columns small_config grey_pixels true sample_sim = inr advanced
    /\ animate small_config grey_pixels true sample_sim = inr s'
    /\ particles_x s' = List.filter (keep_column small_config) advanced
    /\ length advanced = 2%nat
    /\ length (particles_x s') = 1%nat.
Proof.
  set (advanced :=
         match advanced_columns small_config grey_pixels true sample_sim with
         | inr a => a
         | inl _ => []
         end).
  assert (advanced_columns small_config grey_pixels true sample_sim
          = inr advanced) as Hadv by (vm_compute; reflexivity).
  destruct (cull_iff_min_below_canvas pade_exp taylor_sin taylor_cos
              small_config grey_pixels true sample_sim advanced Hadv)
    as (s' & Han & Hfilter & _).
  exists advanced, s'. split; [exact Hadv |]. split; [exact Han |].
  split; [exact Hfilter |]. split; [vm_compute; reflexivity |].
  rewrite Hfilter. vm_compute. reflexivity.
Defined.



Lemma apply_image_effects_preserves_input_witness :
  exists out h',
    apply_image_effects_st default_process_params sample_array sample_store
    = (out, h')
    /\ h' !! 7%nat = sample_store !! 7%nat
    /\ sample_store !! base out = None.
Proof.
  destruct (apply_image_effects_preserves_input default_process_params
              sample_array sample_store [[0; 1 # 2]; [1; 1 # 4]]%Q)
    as (out & h' & Hrun & Hold & _ & Hnew & _).
  - reflexivity.
  - exists out, h'. split; [exact Hrun |]. split; [| exact Hnew].
    rewrite (Hold 7%nat [[0; 1 # 2]; [1; 1 # 4]]%Q); reflexivity.
Defined.

End Witnesses.

(** * The rest of the program *)

(** ** The shape of the arrays *)

Section PipelineShape.
Context {F : Type} {num : Num F}.

Lemma gaussian_filter1d_keeps_length (input : list F) (sigma : F) :
  length (gaussian_filter1d input sigma) = length input.
Proof.
  unfold gaussian_filter1d, correlate1d. rewrite length_map, length_seqZ. lia.
Qed.

Lemma axis1_square (n : Z) (m : list (list F)) (sigma : F) :
  square n m -> square n (gaussian_filter1d_axis1 m sigma).
Proof.
  intros [Hrows Hcols]. unfold gaussian_filter1d_axis1. split.
  - rewrite length_map. exact Hrows.
  - rewrite List.Forall_forall in *. intros r Hr.
    apply in_map_iff in Hr as (r0 & <- & Hr0).
    rewrite gaussian_filter1d_keeps_length. apply Hcols. exact Hr0.
Qed.

Lemma axis0_square (n : Z) (m : list (list F)) (sigma : F) :
  square n m -> square n (gaussian_filter1d_axis0 m sigma).
Proof.
  intros [Hrows Hcols]. unfold gaussian_filter1d_axis0, nrows. split.
  - rewrite length_map, length_seq. exact Hrows.
  - apply List.Forall_forall. intros r Hr.
    apply in_map_iff in Hr as (i & <- & Hi). apply in_seq in Hi.
    rewrite !length_map, length_seq.
    destruct m as [| r0 m0]; [simpl in Hi; lia |]. simpl.
    rewrite List.Forall_forall in Hcols. apply Hcols. left. reflexivity.
Qed.

Lemma flipud_square {A} (n : Z) (m : list (list A)) :
  square n m -> square n (flipud m).
Proof.
  intros [Hrows Hcols]. unfold flipud. split.
  - rewrite length_rev. exact Hrows.
  - rewrite List.Forall_forall in *. intros r Hr. apply Hcols.
    apply in_rev. exact Hr.
Qed.

(** [apply_image_effects] keeps the shape: the contrast curve, the
    re-normalization, both passes of the blur, the scaling and the flip
    all do. *)
Lemma apply_image_effects_square (P : ProcessParams F) (n : Z)
      (data : list (list F)) :
  square n data -> square n (apply_image_effects P data).
Proof.
  intros Hsq. unfold apply_image_effects, preprocessing_blur, renormalize,
                s_curve.
  apply flipud_square, map2d_square, axis1_square, axis0_square,
    map2d_square, map2d_square. exact Hsq.
Qed.

End PipelineShape.

(** ** More of the animation loop *)

Section TickShape.
Context {F : Type} {num : Num F}.
Variable cfg : Config F.

Lemma rmapM_error {A B} (f : A -> result B) (xs : list A) (e : exn) :
  rmapM f xs = inl e -> exists x, In x xs /\ f x = inl e.
Proof.
  induction xs as [| x xs IH]; simpl; [discriminate |].
  destruct (f x) as [e0 | y] eqn:Hx; simpl.
  - intros He. injection He as <-. exists x. split; [left; reflexivity | exact Hx].
  - destruct (rmapM f xs) as [e1 | ys]; simpl; [| discriminate].
    intros He. injection He as <-. destruct (IH eq_refl) as (x' & Hin & Hf).
    exists x'. split; [right; exact Hin | exact Hf].
Qed.

(** The only exception of the loop body is the IndexError of line 345. *)
Lemma advance_column_error (pixels : list (list F)) (col_x : list F)
      (e : exn) :
  advance_column cfg pixels col_x = inl e -> e = IndexError.
Proof.
  unfold advance_column, move_column, sample_brightness, fancy_index.
  destruct (Nat.eqb _ _).
  - destruct (rmapM _ _) as [e0 | brightness] eqn:Hm; simpl;
      [| discriminate].
    intros He. injection He as <-.
    apply rmapM_error in Hm as ([r c] & _ & Hf). simpl in Hf.
    unfold np_index in Hf.
    destruct (_ && _) in Hf; simpl in Hf.
    + destruct (pixels !! _) as [row |]; simpl in Hf.
      * destruct (_ && _) in Hf; [destruct (row !! _) |];
          try discriminate; injection Hf as <-; reflexivity.
      * injection Hf as <-. reflexivity.
    + injection Hf as <-. reflexivity.
  - simpl. intros He. injection He as <-. reflexivity.
Qed.

Lemma spawn_columns_cases (gen : bool) (s : Sim F) (particles : list (list F)) :
  spawn_columns cfg gen s = inr particles ->
  particles = particles_x s
  \/ (gen = true /\ (frame_count s + 1) mod FRAME_INTERVAL cfg = 0
      /\ particles = particles_x s ++ [np_zeros (CANVAS_SIZE cfg)]).
Proof.
  unfold spawn_columns, spawns. destruct gen; simpl.
  - destruct (FRAME_INTERVAL cfg =? 0); simpl; [discriminate |].
    destruct (_ mod _ =? 0) eqn:E; intros Hp; injection Hp as <-.
    + right. apply Z.eqb_eq in E. auto.
    + left. reflexivity.
  - intros Hp. injection Hp as <-. left. reflexivity.
Qed.

(** X1 (a tick adds at most one column).  Whenever [animate] returns, the
    frame counter has advanced by one and [particles_x] holds at most one
    column more than before; it holds no more than before when generation
    is disabled or the interval does not divide the new frame count. *)
Theorem tick_adds_at_most_one_column (pixels : list (list F)) (gen : bool)
        (s s' : Sim F) :
  animate cfg pixels gen s = inr s' ->
  frame_count s' = frame_count s + 1
  /\ (length (particles_x s') <= length (particles_x s) + 1)%nat
  /\ (gen = false \/ (frame_count s + 1) mod FRAME_INTERVAL cfg <> 0 ->
      (length (particles_x s') <= length (particles_x s))%nat).
Proof.
  unfold animate, advanced_columns. intros Ha.
  apply rbind_ok in Ha as (advanced & Hadv & Ha).
  apply rbind_ok in Hadv as (particles & Hsp & Hadv).
  injection Ha as <-. simpl. split; [reflexivity |].
  apply rmapM_length in Hadv.
  pose proof (filter_length_le (keep_column cfg) advanced) as Hle.
  apply spawn_columns_cases in Hsp as [-> | (Hgen & Hmod & ->)].
  - split; [lia |]. intros _. lia.
  - rewrite length_app in Hadv. simpl in Hadv. split; [lia |].
    intros [Hoff | Hnd]; [congruence | contradiction].
Qed.


(** A column that the loop body returns has as many rows as
    [y_indices]: the fancy index of line 345 raises otherwise. *)
Lemma advance_column_rows (pixels : list (list F)) (col_x col' : list F) :
  advance_column cfg pixels col_x = inr col' ->
  length col' = length (y_indices cfg).
Proof.
  intros Ha. unfold advance_column in Ha.
  apply rbind_ok in Ha as (moved & Hm & Ha). injection Ha as <-.
  rewrite gaussian_filter1d_keeps_length. unfold move_column in Hm.
  apply rbind_ok in Hm as (norm_b & Hs & Hm). injection Hm as <-.
  unfold sample_brightness in Hs.
  apply rbind_ok in Hs as (brightness & Hf & Hs). injection Hs as <-.
  unfold fancy_index in Hf.
  destruct (Nat.eqb _ _) eqn:E; [| discriminate].
  apply Nat.eqb_eq in E. apply rmapM_length in Hf.
  rewrite length_zip_with in Hf. unfold final_speed.
  rewrite !length_zip_with, !length_map, Hf. unfold current_x_int in *.
  rewrite length_map in *. lia.
Qed.

(** Columns of CANVAS_SIZE rows. *)
Definition columns_sized (cols : list (list F)) : Prop :=
  Forall (fun col => Z.of_nat (length col) = CANVAS_SIZE cfg) cols.

Lemma animate_columns_sized (pixels : list (list F)) (gen : bool)
      (s s' : Sim F) :
  0 <= CANVAS_SIZE cfg ->
  animate cfg pixels gen s = inr s' ->
  columns_sized (particles_x s').
Proof.
  intros HN Ha. unfold animate, advanced_columns in Ha.
  apply rbind_ok in Ha as (advanced & Hadv & Ha).
  apply rbind_ok in Hadv as (particles & _ & Hadv).
  injection Ha as <-. simpl.
  apply List.Forall_forall. intros col' Hin. apply filter_In in Hin as [Hin _].
  destruct (rmapM_In_inv _ _ _ Hadv col' Hin) as (col & _ & Hf).
  rewrite (advance_column_rows _ _ _ Hf). unfold y_indices.
  rewrite length_seqZ. lia.
Qed.

(** The flattened positions paired with the tiled row indices are the
    columns paired row by row. *)
Lemma zip_concat_tiled {A} (ys : list Z) (cols : list (list A)) :
  Forall (fun col => length col = length ys) cols ->
  zip (concat cols) (concat (map (fun _ => ys) cols))
  = concat (map (fun col => zip col ys) cols).
Proof.
  induction 1 as [| col cols Hlen _ IH]; simpl; [reflexivity |].
  rewrite zip_with_app by exact Hlen. rewrite IH. reflexivity.
Qed.

(** X3 (the points handed to the scatter plot).  When a tick returns,
    [(x, y)] is among the offsets exactly when [x] is the position of
    row [y] of a surviving column and [x < CANVAS_SIZE] holds: every
    drawn point lies on a canvas row, left of the right edge, and no
    such position is left out. *)
Theorem emitted_points_are_positions_inside_canvas (pixels : list (list F))
        (gen : bool) (s s' : Sim F) :
  animate cfg pixels gen s = inr s' ->
  forall x y,
    In (x, y) (scat_offsets s')
    <-> (0 <= y < CANVAS_SIZE cfg
         /\ ltb x (of_Z (CANVAS_SIZE cfg)) = true
         /\ exists col, In col (particles_x s')
                        /\ col !! Z.to_nat y = Some x).
Proof.
  intros Ha x y.
  assert (Forall (fun col => length col = length (y_indices cfg))
                 (particles_x s')) as Hrows.
  { unfold animate, advanced_columns in Ha.
    apply rbind_ok in Ha as (advanced & Hadv & Ha).
    apply rbind_ok in Hadv as (particles & _ & Hadv).
    injection Ha as <-. simpl.
    apply List.Forall_forall. intros col' Hin.
    apply filter_In in Hin as [Hin _].
    destruct (rmapM_In_inv _ _ _ Hadv col' Hin) as (col & _ & Hf).
    exact (advance_column_rows _ _ _ Hf). }
  assert (scat_offsets s' = offsets cfg (particles_x s')) as ->.
  { unfold animate in Ha. apply rbind_ok in Ha as (adv & _ & Ha).
    injection Ha as <-. reflexivity. }
  unfold offsets. rewrite filter_In. simpl.
  rewrite (zip_concat_tiled _ _ Hrows). rewrite in_concat. split.
  - intros [(l & Hl & Hxy) Hlt].
    apply in_map_iff in Hl as (col & <- & Hcol).
    apply list_elem_of_In, list_elem_of_lookup_1 in Hxy as [i Hi].
    apply lookup_zip_with_Some in Hi as (x0 & y0 & Heq & Hx & Hy).
    injection Heq as -> ->. unfold y_indices in Hy.
    apply lookup_seqZ in Hy as [-> Hi]. rewrite Z.add_0_l.
    split; [lia |]. split; [exact Hlt |].
    exists col. rewrite Nat2Z.id. split; assumption.
  - intros (Hy & Hlt & col & Hcol & Hx). split; [| exact Hlt].
    exists (zip col (y_indices cfg)). split.
    + apply in_map_iff. exists col. split; [reflexivity | exact Hcol].
    + apply list_elem_of_In. apply (list_elem_of_lookup_2 _ (Z.to_nat y)).
      apply lookup_zip_with_Some. exists x, y.
      split; [reflexivity |]. split; [exact Hx |].
      unfold y_indices. apply lookup_seqZ. split; lia.
Qed.

End TickShape.

(** ** More of the image loader *)

Section LoaderOutcome.
Context {F image : Type} {num : Num F} {ext : Extern F image}.
Variable cfg : Config F.


Hypothesis resize_size :
  forall img,
    square (CANVAS_SIZE cfg)
           (np_array (img_resize_lanczos img
                                         (CANVAS_SIZE cfg, CANVAS_SIZE cfg))).

Lemma normalize_image_square (img : image) :
  square (CANVAS_SIZE cfg) (normalize_image cfg img).
Proof using resize_size.
  unfold normalize_image. apply map2d_square.
  destruct (ltb _ _); [apply map2d_square |]; apply map2d_square, resize_size.
Qed.

Lemma load_image_data_square (image_path : string) (raw : list (list F)) :
  load_image_data cfg image_path = inr raw -> square (CANVAS_SIZE cfg) raw.
Proof using resize_size.
  unfold load_image_data. intros Hl.
  apply rbind_ok in Hl as (img & _ & Hl). injection Hl as <-.
  apply normalize_image_square.
Qed.

(** X5 (the buffer of a selected image has the canvas shape).  When
    Pillow's [resize] returns the size asked for, selecting any image that
    loads leaves a raw field and a brightness buffer of CANVAS_SIZE rows
    of CANVAS_SIZE entries, whatever PROCESS_PARAMS holds, and the buffer
    shown by the image object is that buffer. *)
Theorem selected_image_buffer_has_canvas_shape (file_path : string)
        (w w' : World F) :
  file_path <> EmptyString ->
  select_image cfg file_path w = inr w' ->
  (exists raw, raw_normalized_data w' = Some raw
               /\ square (CANVAS_SIZE cfg) raw)
  /\ square (CANVAS_SIZE cfg) (pixels w')
  /\ img_obj_data w' = pixels w'.
Proof using resize_size.
  intros Hne Hs. unfold select_image in Hs.
  destruct (String.eqb file_path EmptyString) eqn:E;
    [apply String.eqb_eq in E; contradiction |].
  apply rbind_ok in Hs as (raw & Hraw & Hs). injection Hs as <-. simpl.
  pose proof (load_image_data_square file_path raw Hraw) as Hsq.
  split; [eauto |]. split; [| reflexivity].
  apply apply_image_effects_square. exact Hsq.
Qed.

(** The box [crop_center_square] hands to [img.crop]. *)
Definition center_square_box (width height : Z) : F * F * F * F :=
  let min_dim := Z.min width height in
  (div (of_Z (width - min_dim)) (of_Z 2),
   div (of_Z (height - min_dim)) (of_Z 2),
   div (of_Z (width + min_dim)) (of_Z 2),
   div (of_Z (height + min_dim)) (of_Z 2)).

Lemma crop_center_square_box (img : image) :
  crop_center_square img
  = img_crop img (center_square_box (fst (img_size img)) (snd (img_size img))).
Proof.
  unfold crop_center_square, center_square_box.
  destruct (img_size img) as [width height]. reflexivity.
Qed.

End LoaderOutcome.

(** ** Invariants of the interaction callbacks *)

Section WorldInvariants.
Context {F image : Type} {num : Num F} {ext : Extern F image}.
Variable cfg : Config F.

(** Exactly one of the image and the particles is shown. *)
Definition shows_one (w : World F) : Prop :=
  scat_visible w = negb (img_obj_visible w).

(** The raw field is cached, the brightness buffer is the effect of the
    current parameters on it, and the image object shows that buffer. *)
Definition cache_coherent (w : World F) : Prop :=
  exists raw,
    raw_normalized_data w = Some raw
    /\ pixels w = apply_image_effects (PROCESS_PARAMS w) raw
    /\ img_obj_data w = pixels w.

(** X11 (the image and the particles are never shown together).  After
    module initialisation the particles are visible and the image is
    not; every callback that returns keeps exactly one of the two
    visible, and [toggle_view] exchanges them. *)
Theorem image_and_particles_alternate :
  (forall P bg dot w, init_world cfg P bg dot = inr w ->
                      shows_one w /\ img_obj_visible w = false)
  /\ (forall ev w w',
         shows_one w -> handle cfg ev w = inr w' -> shows_one w')
  /\ (forall w, shows_one w ->
                img_obj_visible (toggle_view w) = negb (img_obj_visible w)
                /\ scat_visible (toggle_view w) = negb (scat_visible w)).
Proof.
  split; [| split].
  - intros P bg dot w Hi. unfold init_world in Hi.
    apply rbind_ok in Hi as (raw & _ & Hi). injection Hi as <-.
    split; reflexivity.
  - intros ev w w' Hw Hh. unfold shows_one in *.
    destruct ev as [| | p | c | c |]; simpl in Hh.
    + unfold tick in Hh. apply rbind_ok in Hh as (s' & _ & Hh).
      injection Hh as <-. exact Hw.
    + injection Hh as <-. simpl.
      destruct (img_obj_visible w); reflexivity.
    + unfold select_image in Hh. destruct (String.eqb p EmptyString).
      * injection Hh as <-. exact Hw.
      * apply rbind_ok in Hh as (raw & _ & Hh). injection Hh as <-. exact Hw.
    + injection Hh as <-. destruct c; exact Hw.
    + injection Hh as <-. unfold set_dot_color.
      destruct (raw_normalized_data w); exact Hw.
    + injection Hh as <-. exact Hw.
  - intros w Hw. unfold shows_one in Hw. simpl. rewrite Hw.
    destruct (img_obj_visible w); split; reflexivity.
Qed.

(** X12 (the recomputation of [set_dot_color] changes nothing shown).
    After module initialisation the raw field is cached and both
    [pixels] and the data of the image object are
    [apply_image_effects] of it; every callback that returns keeps this.
    In such a state the guard [raw_normalized_data is not None] of
    [set_dot_color] holds, and the buffer it computes and hands to the
    image object is the one the image object already shows. *)
Theorem dot_color_recomputation_is_redundant :
  (forall P bg dot w, init_world cfg P bg dot = inr w -> cache_coherent w)
  /\ (forall ev w w',
         cache_coherent w -> handle cfg ev w = inr w' -> cache_coherent w')
  /\ (forall color w,
         cache_coherent w ->
         raw_normalized_data w <> None
         /\ img_obj_data (set_dot_color color w) = img_obj_data w
         /\ pixels (set_dot_color color w) = pixels w
         /\ effects_calls (set_dot_color color w) = S (effects_calls w)).
Proof.
  split; [| split].
  - intros P bg dot w Hi. unfold init_world in Hi.
    apply rbind_ok in Hi as (raw & _ & Hi). injection Hi as <-.
    exists raw. repeat split.
  - intros ev w w' (raw & Hraw & Hpx & Himg) Hh.
    destruct ev as [| | p | c | c |]; simpl in Hh.
    + unfold tick in Hh. apply rbind_ok in Hh as (s' & _ & Hh).
      injection Hh as <-. exists raw. repeat split; assumption.
    + injection Hh as <-. exists raw. repeat split; assumption.
    + unfold select_image in Hh. destruct (String.eqb p EmptyString).
      * injection Hh as <-. exists raw. repeat split; assumption.
      * apply rbind_ok in Hh as (raw' & _ & Hh). injection Hh as <-.
        exists raw'. repeat split.
    + injection Hh as <-. exists raw. destruct c; repeat split; assumption.
    + injection Hh as <-. exists raw. unfold set_dot_color. rewrite Hraw.
      simpl.
      split; [| split];
        first [assumption | symmetry; assumption | reflexivity].
    + injection Hh as <-. exists raw. repeat split; assumption.
  - intros color w (raw & Hraw & Hpx & Himg).
    split; [rewrite Hraw; discriminate |].
    unfold set_dot_color. rewrite Hraw. simpl.
    split; [rewrite Himg, Hpx; reflexivity |]. split; reflexivity.
Qed.

End WorldInvariants.

(** ** A tick on a buffer of NaN *)

Lemma rmapM_map {A B} (f : A -> result B) (g : A -> B) (xs : list A) :
  (forall x, In x xs -> f x = inr (g x)) -> rmapM f xs = inr (map g xs).
Proof.
  induction xs as [| x xs IH]; intros Hf; simpl; [reflexivity |].
  rewrite (Hf x (or_introl eq_refl)). simpl.
  rewrite IH by (intros; apply Hf; right; assumption). reflexivity.
Qed.

Lemma map_const_replicate {A B} (c : B) (xs : list A) :
  map (fun _ => c) xs = replicate (length xs) c.
Proof. induction xs; simpl; [reflexivity | f_equal; assumption]. Qed.

Section AbsorbedTick.
Context {F : Type} {num : Num F}.
Variable cfg : Config F.
Variable z : F.
Hypothesis mul_absorbs : forall w, mul w z = z.
Hypothesis mul_absorbs_l : forall w, mul z w = z.
Hypothesis add_absorbs_r : forall x, add x z = z.
Hypothesis add_absorbs_l : forall x, add z x = z.
Hypothesis sub_absorbs_r : forall x, sub x z = z.
Hypothesis div_absorbs_l : forall x, div z x = z.
Hypothesis ltb_absorbs_l : forall x, ltb z x = false.
Hypothesis isnan_absorbs : isnan z = true.
Hypothesis canvas_pos : 1 <= CANVAS_SIZE cfg.
Hypothesis interval_nonzero : FRAME_INTERVAL cfg <> 0.
Hypothesis radius_nonneg : 0 <= gaussian_radius (LINE_TENSION cfg).
Hypothesis left_edge :
  to_int (clip (of_Z 0) (of_Z 0) (of_Z (CANVAS_SIZE cfg - 1))) = 0.

Lemma sample_brightness_absorbed :
  sample_brightness cfg (uniform_field (CANVAS_SIZE cfg) z)
                    (np_zeros (CANVAS_SIZE cfg))
  = inr (replicate (Z.to_nat (CANVAS_SIZE cfg)) z).
Proof using div_absorbs_l canvas_pos left_edge.
  unfold sample_brightness, fancy_index, current_x_int, np_zeros, y_indices.
  rewrite map_replicate, left_edge.
  rewrite length_seqZ, length_replicate, Nat.eqb_refl.
  rewrite (rmapM_map _ (fun _ => z)).
  - simpl. rewrite map_map, map_const_replicate.
    rewrite length_zip_with, length_seqZ, length_replicate, Nat.min_id.
    rewrite div_absorbs_l. reflexivity.
  - intros [y x] Hin. apply list_elem_of_In in Hin.
    pose proof (elem_of_zip_l _ _ _ _ Hin) as Hy.
    pose proof (elem_of_zip_r _ _ _ _ Hin) as Hx.
    apply elem_of_seqZ in Hy. apply elem_of_replicate in Hx as [-> _].
    simpl fst. simpl snd.
    assert (np_index (uniform_field (CANVAS_SIZE cfg) z) y
            = inr (replicate (Z.to_nat (CANVAS_SIZE cfg)) z)) as ->.
    { unfold np_index, uniform_field. rewrite length_replicate.
      destruct (y <? 0) eqn:E; [apply Z.ltb_lt in E; lia |].
      destruct ((0 <=? y) && (y <? Z.of_nat (Z.to_nat (CANVAS_SIZE cfg))))
        eqn:E2; [| apply andb_false_iff in E2 as [E2 | E2];
                   [apply Z.leb_gt in E2 | apply Z.ltb_ge in E2]; lia].
      rewrite lookup_replicate_2 by lia. reflexivity. }
    simpl. unfold np_index. rewrite length_replicate.
    change (0 <? 0) with false. cbv iota.
    destruct ((0 <=? 0) && (0 <? Z.of_nat (Z.to_nat (CANVAS_SIZE cfg))))
      eqn:E2; [| apply andb_false_iff in E2 as [E2 | E2];
                 [apply Z.leb_gt in E2 | apply Z.ltb_ge in E2]; lia].
    rewrite lookup_replicate_2 by lia. reflexivity.
Qed.

(** The new column, advanced over a buffer of [z], is a column of [z]. *)
Lemma advance_column_absorbed :
  advance_column cfg (uniform_field (CANVAS_SIZE cfg) z)
                 (np_zeros (CANVAS_SIZE cfg))
  = inr (replicate (Z.to_nat (CANVAS_SIZE cfg)) z).
Proof using mul_absorbs mul_absorbs_l add_absorbs_r add_absorbs_l
            sub_absorbs_r div_absorbs_l canvas_pos radius_nonneg left_edge.
  unfold advance_column, move_column. rewrite sample_brightness_absorbed.
  simpl. f_equal. unfold final_speed, np_zeros.
  rewrite !map_replicate, mul_absorbs_l, sub_absorbs_r, mul_absorbs.
  rewrite zip_with_replicate, add_absorbs_l.
  rewrite zip_with_replicate, add_absorbs_r.
  apply (gaussian_filter1d_uniform z mul_absorbs add_absorbs_r add_absorbs_l);
    [exact radius_nonneg | lia].
Qed.

(** A column of [z] fails the test of line 360. *)
Lemma keep_column_absorbed :
  keep_column cfg (replicate (Z.to_nat (CANVAS_SIZE cfg)) z) = false.
Proof using ltb_absorbs_l isnan_absorbs canvas_pos.
  unfold keep_column.
  destruct (Z.to_nat (CANVAS_SIZE cfg)) as [| n] eqn:E; [lia |].
  simpl. rewrite fold_same; [apply ltb_absorbs_l | |].
  - unfold minimum. rewrite isnan_absorbs, orb_true_r. reflexivity.
  - intros x Hx. apply list_elem_of_In, elem_of_replicate in Hx as [-> _].
    reflexivity.
Qed.

(** Without columns before the tick, there are none after it. *)
Lemma animate_absorbed (gen : bool) (s : Sim F) :
  particles_x s = [] ->
  animate cfg (uniform_field (CANVAS_SIZE cfg) z) gen s
  = inr {| frame_count := frame_count s + 1;
           particles_x := [];
           scat_offsets := [] |}.
Proof using mul_absorbs mul_absorbs_l add_absorbs_r add_absorbs_l
            sub_absorbs_r div_absorbs_l ltb_absorbs_l isnan_absorbs
            canvas_pos interval_nonzero radius_nonneg left_edge.
  intros Hempty. unfold animate, advanced_columns, spawn_columns, spawns.
  rewrite Hempty. destruct gen; simpl.
  - destruct (FRAME_INTERVAL cfg =? 0) eqn:E;
      [apply Z.eqb_eq in E; contradiction |].
    simpl. destruct (_ mod _ =? 0); simpl; [| reflexivity].
    rewrite advance_column_absorbed. simpl.
    rewrite keep_column_absorbed. reflexivity.
  - reflexivity.
Qed.

Lemma run_absorbed (gen : bool) (n : nat) (s : Sim F) :
  particles_x s = [] -> scat_offsets s = [] ->
  run cfg (uniform_field (CANVAS_SIZE cfg) z) gen n s
  = inr {| frame_count := frame_count s + Z.of_nat n;
           particles_x := [];
           scat_offsets := [] |}.
Proof using mul_absorbs mul_absorbs_l add_absorbs_r add_absorbs_l
            sub_absorbs_r div_absorbs_l ltb_absorbs_l isnan_absorbs
            canvas_pos interval_nonzero radius_nonneg left_edge.
  revert s. induction n as [| n IH]; intros s Hp Hs.
  - simpl. destruct s as [fc px so]. simpl in *. subst.
    rewrite Z.add_0_r. reflexivity.
  - simpl. rewrite animate_absorbed by exact Hp. simpl.
    rewrite IH by reflexivity. simpl. do 2 f_equal. lia.
Qed.

End AbsorbedTick.

Section Binary64Tick.
Variables fexp fsin fcos : float -> float.
#[local] Instance Ft : Num float := float_num fexp fsin fcos.

Lemma float_mul_nan_l (w : float) : PrimFloat.mul nan w = nan.
Proof. apply float_is_nan. rewrite mul_spec. reflexivity. Qed.

Lemma float_sub_nan_r (x : float) : PrimFloat.sub x nan = nan.
Proof.
  apply float_is_nan. rewrite sub_spec.
  change (Prim2SF nan) with S754_nan.
  destruct (Prim2SF x) as [s | s | | s m e]; reflexivity.
Qed.

Lemma float_div_nan_l (x : float) : PrimFloat.div nan x = nan.
Proof. apply float_is_nan. rewrite div_spec. reflexivity. Qed.

Lemma float_ltb_nan_l (x : float) : PrimFloat.ltb nan x = false.
Proof. rewrite ltb_spec. reflexivity. Qed.

(** X10 (a constant image draws nothing).  On the canvas of 512 rows,
    with the buffer [apply_image_effects] makes of a constant raw field
    (every entry a NaN, by the unguarded division of line 140): from a
    state without columns, every tick returns, and after any number of
    ticks there is no column and no drawn point, whether or not columns
    are generated.  A column spawned at the left edge reads a NaN
    brightness, moves to NaN, and fails [np.min(col_x) < CANVAS_SIZE]. *)
Theorem constant_image_draws_nothing (cfg : Config float)
        (steepness midpoint c : float) (gen : bool) (n : nat)
        (s : Sim float) :
  CANVAS_SIZE cfg = 512 ->
  FRAME_INTERVAL cfg <> 0 ->
  PrimFloat.ltb 0 (LINE_TENSION cfg) = true ->
  0 <= gaussian_radius (LINE_TENSION cfg) ->
  particles_x s = [] -> scat_offsets s = [] ->
  run cfg (apply_image_effects (contrast_params steepness midpoint)
                               (uniform_field 512 c)) gen n s
  = inr {| frame_count := frame_count s + Z.of_nat n;
           particles_x := [];
           scat_offsets := [] |}.
Proof.
  intros HN Hint _ Hrad Hp Hs.
  assert (apply_image_effects (contrast_params steepness midpoint)
                              (uniform_field 512 c)
          = uniform_field (CANVAS_SIZE cfg) nan) as ->.
  { rewrite HN.
    exact (proj2 (constant_field_through_effects fexp fsin fcos steepness
                    midpoint c)). }
  apply (run_absorbed (num := Ft) cfg nan
           (float_mul_nan_r : forall w, @mul float Ft w nan = nan)
           (float_mul_nan_l : forall w, @mul float Ft nan w = nan)
           (float_add_nan_r : forall x, @add float Ft x nan = nan)
           (float_add_nan_l : forall x, @add float Ft nan x = nan)
           (float_sub_nan_r : forall x, @sub float Ft x nan = nan)
           (float_div_nan_l : forall x, @div float Ft nan x = nan)
           (float_ltb_nan_l : forall x, @ltb float Ft nan x = false)
           eq_refl); try assumption.
  - lia.
  - rewrite HN. vm_compute. reflexivity.
Qed.

End Binary64Tick.

(** ** The events, on a world of the canvas shape *)

Section RationalWorld.
Variables qexp qsin qcos : Q -> Q.
#[local] Instance Qw : Num Q := Q_num qexp qsin qcos.
Context {image : Type} {ext : Extern Q image}.
Variable cfg : Config Q.
Hypothesis canvas_pos : 1 <= CANVAS_SIZE cfg.
Hypothesis interval_nonzero : FRAME_INTERVAL cfg <> 0.
Hypothesis resize_size :
  forall img,
    square (CANVAS_SIZE cfg)
           (np_array (img_resize_lanczos img
                                         (CANVAS_SIZE cfg, CANVAS_SIZE cfg))).

(** The buffer has the canvas shape and every column has CANVAS_SIZE
    rows. *)
Definition world_sized (w : World Q) : Prop :=
  square (CANVAS_SIZE cfg) (pixels w)
  /\ columns_sized cfg (particles_x (sim w)).

Lemma tick_returns (w : World Q) :
  world_sized w ->
  exists w', handle cfg Tick w = inr w'
             /\ frame_count (sim w') = frame_count (sim w) + 1.
Proof using canvas_pos interval_nonzero.
  intros [Hsq Hcols]. simpl. unfold tick.
  assert (exists particles,
             spawn_columns cfg (is_generating w) (sim w) = inr particles
             /\ columns_sized cfg particles) as (particles & Hsp & Hp).
  { unfold spawn_columns, spawns. destruct (is_generating w); simpl.
    - destruct (FRAME_INTERVAL cfg =? 0) eqn:E;
        [apply Z.eqb_eq in E; contradiction |].
      simpl. eexists. split; [reflexivity |].
      destruct ((frame_count (sim w) + 1) mod FRAME_INTERVAL cfg =? 0);
        [| exact Hcols].
      apply Forall_app. split; [exact Hcols |]. constructor; [| constructor].
      unfold np_zeros. rewrite length_replicate. lia.
    - eexists. split; [reflexivity | exact Hcols]. }
  destruct (rmapM_total (advance_column cfg (pixels w)) particles)
    as [advanced Hadv].
  { intros col Hcol. unfold columns_sized in Hp.
    rewrite List.Forall_forall in Hp.
    destruct (move_column_total qexp qsin qcos cfg (pixels w) col canvas_pos
                Hsq (Hp col Hcol)) as (m & _ & Ha).
    eauto. }
  unfold animate, advanced_columns. rewrite Hsp. simpl. rewrite Hadv. simpl.
  eexists. split; reflexivity.
Qed.

Lemma handle_keeps_world_sized (ev : event) (w w' : World Q) :
  world_sized w -> handle cfg ev w = inr w' -> world_sized w'.
Proof using canvas_pos resize_size.
  intros [Hsq Hcols]. destruct ev as [| | p | c | c |]; simpl; intros Hh.
  - unfold tick in Hh. apply rbind_ok in Hh as (s' & Ha & Hh).
    injection Hh as <-. split; [exact Hsq |]. simpl.
    apply (animate_columns_sized cfg (pixels w) (is_generating w) (sim w) s');
      [lia | exact Ha].
  - injection Hh as <-. split; assumption.
  - unfold select_image in Hh. destruct (String.eqb p EmptyString).
    + injection Hh as <-. split; assumption.
    + apply rbind_ok in Hh as (raw & Hraw & Hh). injection Hh as <-.
      split; simpl; [| constructor].
      apply apply_image_effects_square.
      exact (load_image_data_square cfg resize_size p raw Hraw).
  - injection Hh as <-. destruct c; split; assumption.
  - injection Hh as <-. unfold set_dot_color.
    destruct (raw_normalized_data w); split; assumption.
  - injection Hh as <-. split; assumption.
Qed.


End RationalWorld.

(** ** Exact arithmetic: the rest of the image pipeline *)

Section RationalPipeline.
Variables qexp qsin qcos : Q -> Q.
#[local] Instance Qp : Num Q := Q_num qexp qsin qcos.
Context {image : Type} {ext : Extern Q image}.
Variable cfg : Config Q.

(** X6 (the crop is the centred square).  The box [crop_center_square]
    passes to [img.crop] is a square whose side is the smaller dimension
    of the image, it has the centre of the image (its sides are equally
    far from opposite borders), it starts inside the image, and it
    touches the border along the shorter axis. *)
Theorem crop_box_is_centred_square (img : image) :
  exists x0 y0 x1 y1 : Q,
    crop_center_square img = img_crop img (x0, y0, x1, y1)
    /\ (x1 - x0 == inject_Z (Z.min (fst (img_size img)) (snd (img_size img))))%Q
    /\ (y1 - y0 == inject_Z (Z.min (fst (img_size img)) (snd (img_size img))))%Q
    /\ (x0 == inject_Z (fst (img_size img)) - x1)%Q
    /\ (y0 == inject_Z (snd (img_size img)) - y1)%Q
    /\ (0 <= x0)%Q /\ (0 <= y0)%Q
    /\ ((x0 == 0)%Q \/ (y0 == 0)%Q).
Proof.
  rewrite crop_center_square_box. unfold center_square_box.
  destruct (img_size img) as [width height]. simpl fst. simpl snd.
  eexists _, _, _, _. split; [reflexivity |].
  change (@div Q Qp) with Qdiv. change (@of_Z Q Qp) with inject_Z.
  set (m := Z.min width height).
  assert (m <= width /\ m <= height /\ (m = width \/ m = height))
    as (Hw & Hh & Hm) by (unfold m; lia).
  replace (width - m) with (width + - m) by lia.
  replace (height - m) with (height + - m) by lia.
  rewrite !inject_Z_plus, !inject_Z_opp.
  rewrite Zle_Qle in Hw, Hh.
  assert (inject_Z m == inject_Z width \/ inject_Z m == inject_Z height)%Q
    as Hm' by (destruct Hm as [-> | ->]; [left | right]; reflexivity).
  change (inject_Z 2) with 2%Q.
  repeat split; try (field; fail).
  - apply Qle_shift_div_l; lra.
  - apply Qle_shift_div_l; lra.
  - destruct Hm' as [Hm' | Hm']; [left | right]; rewrite Hm'; field.
Qed.

(** X7 (the raw field lies in [0,1]).  Whatever the image and whatever
    the percentiles, every value of a raw field that [load_image_data]
    returns lies in [0,1]: the function ends with [np.clip(data, 0, 1)]. *)
Theorem raw_field_in_unit_interval (image_path : string)
        (raw : list (list Q)) :
  load_image_data cfg image_path = inr raw -> in_range 0 1 raw.
Proof.
  unfold load_image_data. intros Hl.
  apply rbind_ok in Hl as (img & _ & Hl). injection Hl as <-.
  apply (normalize_image_range qexp qsin qcos).
Qed.

End RationalPipeline.

Section TestTexture.
Variables qexp qsin qcos : Q -> Q.
#[local] Instance Qt : Num Q := Q_num qexp qsin qcos.
Variable cfg : Config Q.
Hypothesis qsin_range : forall x, (-1 <= qsin x <= 1)%Q.
Hypothesis qcos_range : forall x, (-1 <= qcos x <= 1)%Q.

Lemma Qtrunc_lower (q : Q) (a : Z) :
  0 <= a -> (inject_Z a <= q)%Q -> a <= Qtrunc q.
Proof.
  destruct q as [n d]. unfold Qle, Qtrunc, inject_Z. simpl.
  intros Ha Hq. rewrite Z.mul_1_r in Hq.
  rewrite Z.quot_div_nonneg by nia.
  apply Z.div_le_lower_bound; lia.
Qed.

(** X8 (the test texture fits in eight bits).  As the sine and the
    cosine lie in [-1,1], every sample [sin(10x) * cos(5y) * 127 + 128]
    of the default texture is cast to an integer between 1 and 255: the
    cast to uint8 never wraps around. *)
Theorem default_texture_fits_eight_bits :
  Forall (Forall (fun p => 1 <= p <= 255)) (default_texture cfg).
Proof using qsin_range qcos_range.
  unfold default_texture. apply List.Forall_forall. intros row Hrow.
  apply in_map_iff in Hrow as (yv & <- & _).
  apply List.Forall_forall. intros p Hp.
  apply in_map_iff in Hp as (xv & <- & _).
  unfold to_uint8.
  change (to_int (add (mul (mul (np_sin (mul xv (of_Z 10)))
                                (np_cos (mul yv (of_Z 5))))
                           (of_Z 127))
                      (of_Z 128)))
    with (Qtrunc (qsin (xv * 10) * qcos (yv * 5) * 127 + 128)%Q).
  destruct (qsin_range (xv * 10)%Q) as [Hs0 Hs1].
  destruct (qcos_range (yv * 5)%Q) as [Hc0 Hc1].
  set (sn := qsin (xv * 10)%Q) in *. set (cs := qcos (yv * 5)%Q) in *.
  assert (0 <= (1 - sn) * (1 + cs))%Q by (apply Qmult_le_0_compat; lra).
  assert (0 <= (1 + sn) * (1 - cs))%Q by (apply Qmult_le_0_compat; lra).
  assert (0 <= (1 - sn) * (1 - cs))%Q by (apply Qmult_le_0_compat; lra).
  assert (0 <= (1 + sn) * (1 + cs))%Q by (apply Qmult_le_0_compat; lra).
  assert (1 <= sn * cs * 127 + 128 <= 255)%Q as [Hlo Hhi] by (split; lra).
  assert (1 <= Qtrunc (sn * cs * 127 + 128)%Q <= 255) as Hr.
  { split.
    - apply Qtrunc_lower; [lia | exact Hlo].
    - apply Qtrunc_range; [lra | exact Hhi]. }
  rewrite Z.mod_small by lia. exact Hr.
Qed.

End TestTexture.

(** ** The control panel *)

Section PanelProperties.
Context {F : Type} {num : Num F}.

Lemma add_sliders_ok (params : gmap string F) (calls : list (slider_args F))
      (sliders : list (Slider F)) :
  add_sliders params calls = inr sliders ->
  map slider_args_of sliders = calls
  /\ Forall (fun s => params !! key (slider_args_of s) = Some (valinit s))
            sliders.
Proof.
  revert sliders. induction calls as [| args rest IH]; intros sliders Hs;
    simpl in Hs.
  - injection Hs as <-. split; [reflexivity | constructor].
  - unfold _add_slider in Hs. destruct (params !! key args) as [v |] eqn:Ev;
      [| discriminate].
    destruct (add_sliders params rest) as [e | sliders'] eqn:Er;
      [discriminate |].
    injection Hs as <-. destruct (IH sliders' eq_refl) as [Hm Hf].
    split; [simpl; f_equal; exact Hm |]. constructor; [exact Ev | exact Hf].
Qed.

Lemma add_sliders_raises (params : gmap string F)
      (calls : list (slider_args F)) (k : string) :
  add_sliders params calls = inl (KeyError k) ->
  params !! k = None
  /\ exists before args after,
       calls = before ++ args :: after
       /\ key args = k
       /\ Forall (fun a => is_Some (params !! key a)) before.
Proof.
  induction calls as [| args rest IH]; intros Hs; simpl in Hs;
    [discriminate |].
  unfold _add_slider in Hs. destruct (params !! key args) as [v |] eqn:Ev.
  - destruct (add_sliders params rest) as [e | sliders'] eqn:Er;
      [| discriminate].
    injection Hs as ->.
    destruct (IH eq_refl) as (Hk & before & a & after & -> & Ha & Hb).
    split; [exact Hk |]. exists (args :: before), a, after.
    split; [reflexivity |]. split; [exact Ha |].
    constructor; [rewrite Ev; eauto | exact Hb].
  - injection Hs as <-. split; [exact Ev |].
    exists [], args, rest. split; [reflexivity |].
    split; [reflexivity | constructor].
Qed.

(** X13 (the panel needs every key).  [ControlPanelMSG(params, ...)]
    either returns with the nine sliders of the panel in order, each
    with the entry of [params] under its key as initial value, or it
    raises the KeyError of the first slider, in the order of creation,
    whose key [params] does not have. *)
Theorem panel_needs_every_key (params : gmap string F) :
  match ControlPanelMSG params with
  | inr sliders =>
      map slider_args_of sliders = panel_sliders
      /\ Forall (fun s => params !! key (slider_args_of s) = Some (valinit s))
                sliders
  | inl (KeyError k) =>
      params !! k = None
      /\ exists before args after,
           panel_sliders = before ++ args :: after
           /\ key args = k
           /\ Forall (fun a => is_Some (params !! key a)) before
  end.
Proof.
  unfold ControlPanelMSG.
  destruct (add_sliders params panel_sliders) as [[k] | sliders] eqn:E.
  - apply add_sliders_raises. exact E.
  - apply add_sliders_ok. exact E.
Qed.

Lemma update_keeps (args : slider_args F) (val : F)
      (st : gmap string F * nat) :
  is_Some (fst st !! key args) ->
  dom (fst (update args val st)) = dom (fst st)
  /\ (forall k, k <> key args -> fst (update args val st) !! k = fst st !! k)
  /\ snd (update args val st)
     = (snd st + if is_process args then 1 else 0)%nat.
Proof.
  intros Hk. unfold update. simpl. split; [| split].
  - apply dom_insert_lookup_L. exact Hk.
  - intros k Hne. apply lookup_insert_ne. congruence.
  - destruct (is_process args); lia.
Qed.

(** Moves of sliders whose keys the dictionary has. *)
Lemma moves_keep_other_entries (ms : list (slider_args F * F))
        (params : gmap string F) (calls : nat) :
  Forall (fun m => is_Some (params !! key (fst m))) ms ->
  dom (fst (moves ms (params, calls))) = dom params
  /\ (forall k, ~ In k (map (fun m => key (fst m)) ms) ->
                fst (moves ms (params, calls)) !! k = params !! k)
  /\ snd (moves ms (params, calls))
     = (calls + length (List.filter (fun m => is_process (fst m)) ms))%nat.
Proof.
  revert params calls. induction ms as [| [args val] ms IH];
    intros params calls Hms.
  - simpl. split; [reflexivity |]. split; [reflexivity | lia].
  - apply Forall_cons in Hms as [Hk Hms]. simpl in Hk.
    destruct (update_keeps args val (params, calls) Hk) as (Hd & Ho & Hc).
    unfold moves. simpl fold_left.
    destruct (update args val (params, calls)) as [params1 calls1] eqn:Eu.
    simpl in Hd, Ho, Hc.
    destruct (IH params1 calls1) as (Hd' & Ho' & Hc').
    { eapply Forall_impl; [exact Hms |]. intros m [v Hv]. simpl in Hv.
      apply elem_of_dom. rewrite Hd. apply elem_of_dom. eauto. }
    unfold moves in Hd', Ho', Hc'. split; [| split].
    + rewrite Hd'. exact Hd.
    + intros k Hk'. rewrite Ho'.
      * apply Ho. intros ->. apply Hk'. left. reflexivity.
      * intros Hin. apply Hk'. right. exact Hin.
    + rewrite Hc', Hc. simpl. destruct (is_process args); simpl; lia.
Qed.

Lemma panel_process_keys (args : slider_args F) :
  In args panel_sliders ->
  is_process args
  = existsb (String.eqb (key args))
            ["contrast_steepness"; "contrast_midpoint"; "blur_sigma"]%string.
Proof.
  unfold panel_sliders. simpl.
  intros [<- | [<- | [<- | [<- | [<- | [<- | [<- | [<- | [<- | []]]]]]]]]];
    reflexivity.
Qed.

(** X14 (slider moves write only the sliders' own entries).  After the
    panel is built, a sequence of moves of its sliders leaves the set
    of keys of the shared [params] as it was and every entry under a key
    of no moved slider as it was, and it calls [on_process_change] once
    for every move of the sliders of contrast_steepness,
    contrast_midpoint and blur_sigma, and never for the six others. *)
Theorem slider_moves_keep_other_entries (ms : list (slider_args F * F))
        (params : gmap string F) (sliders : list (Slider F)) (calls : nat) :
  ControlPanelMSG params = inr sliders ->
  Forall (fun m => In (fst m) (map slider_args_of sliders)) ms ->
  dom (fst (moves ms (params, calls))) = dom params
  /\ (forall k, ~ In k (map (fun m => key (fst m)) ms) ->
                fst (moves ms (params, calls)) !! k = params !! k)
  /\ snd (moves ms (params, calls))
     = (calls
        + length (List.filter
                    (fun m => existsb (String.eqb (key (fst m)))
                                ["contrast_steepness"; "contrast_midpoint";
                                 "blur_sigma"]%string) ms))%nat.
Proof.
  intros Hp Hms. unfold ControlPanelMSG in Hp.
  apply add_sliders_ok in Hp as [Hargs Hinit].
  destruct (moves_keep_other_entries ms params calls) as (Hd & Ho & Hc).
  - eapply Forall_impl; [exact Hms |]. intros m Hm.
    apply in_map_iff in Hm as (s & <- & Hs).
    rewrite List.Forall_forall in Hinit. rewrite (Hinit s Hs). eauto.
  - split; [exact Hd |]. split; [exact Ho |]. rewrite Hc. f_equal. f_equal.
    apply filter_ext_in. intros m Hm. apply panel_process_keys.
    rewrite List.Forall_forall in Hms. rewrite <- Hargs. apply Hms. exact Hm.
Qed.

End PanelProperties.

(** ** The theorems of this part at concrete inputs *)

(** The small canvas with a zero FRAME_INTERVAL, and an empty state one
    tick before a spawn. *)
Definition stalled_config : Config Q := {|
  CANVAS_SIZE := 4;
  LINES_PER_FRAME := 1;
  FRAME_INTERVAL := 0;
  BASE_SPEED := 3%Q;
  FRICTION_FACTOR := (9 # 10)%Q;
  ACCELERATION := (1 # 10000)%Q;
  LINE_TENSION := (3 # 10)%Q
|}.

Definition empty_sim (frame : Z) : Sim Q :=
  {| frame_count := frame; particles_x := []; scat_offsets := [] |}.

(** A state of the program on the small canvas, at start-up. *)
Definition sample_world : World Q := {|
  PROCESS_PARAMS := default_process_params (num := Q_sample);
  current_image_path := "input.jpg";
  raw_normalized_data := Some (uniform_field 4 (1 # 2)%Q);
  pixels := grey_pixels;
  img_obj_data := grey_pixels;
  img_obj_visible := false;
  scat_visible := true;
  current_bg_color := "#3A4F68";
  current_dot_color := "#e1ebf5";
  is_generating := true;
  sim := empty_sim 0;
  effects_calls := 1
|}.

(** Stand-ins for [np.sin] and [np.cos] with values in [-1,1]: the
    rational parametrisation of the circle. *)
Definition circle_sin (x : Q) : Q := (2 * x / (1 + x * x))%Q.
Definition circle_cos (x : Q) : Q := ((1 - x * x) / (1 + x * x))%Q.

(** A dictionary with the nine keys of the panel. *)
Definition sample_params : gmap string Q :=
  list_to_map [("LINES_PER_FRAME", 1); ("FRAME_INTERVAL", 15);
               ("BASE_SPEED", 3); ("FRICTION_FACTOR", 9 # 10);
               ("ACCELERATION", 1 # 10000); ("LINE_TENSION", 3 # 10);
               ("contrast_steepness", 9); ("contrast_midpoint", 3 # 10);
               ("blur_sigma", 2)]%Q%string.

Lemma circle_sin_range (x : Q) : (-1 <= circle_sin x <= 1)%Q.
Proof.
  unfold circle_sin.
  pose proof (Qsquare_nonneg x) as H0.
  pose proof (Qsquare_nonneg (x + 1)) as H1.
  pose proof (Qsquare_nonneg (x - 1)) as H2.
  split; [apply Qle_shift_div_l | apply Qle_shift_div_r]; lra.
Qed.

Lemma circle_cos_range (x : Q) : (-1 <= circle_cos x <= 1)%Q.
Proof.
  unfold circle_cos. pose proof (Qsquare_nonneg x) as H0.
  split; [apply Qle_shift_div_l | apply Qle_shift_div_r]; lra.
Qed.

Lemma sample_extern_resize (img : list (list Z)) :
  square (CANVAS_SIZE small_config)
         (np_array (Extern := sample_extern)
                   (img_resize_lanczos (Extern := sample_extern) img
                      (CANVAS_SIZE small_config, CANVAS_SIZE small_config))).
Proof. split; [reflexivity | repeat constructor]. Qed.

Section MoreWitnesses.
#[local] Existing Instance Q_sample.

Lemma tick_adds_at_most_one_column_witness :
  exists s',
    animate small_config grey_pixels true sample_sim = inr s'
    /\ frame_count s' = 1
    /\ (length (particles_x s') <= 3)%nat.
Proof.
  set (s' := match animate small_config grey_pixels true sample_sim with
             | inr t => t
             | inl _ => sample_sim
             end).
  assert (animate small_config grey_pixels true sample_sim = inr s') as Ha
    by (vm_compute; reflexivity).
  destruct (tick_adds_at_most_one_column small_config grey_pixels true
              sample_sim s' Ha) as (Hf & Hl & _).
  exists s'. split; [exact Ha |]. split; [exact Hf | exact Hl].
Defined.


Lemma emitted_points_are_positions_inside_canvas_witness :
  exists s',
    animate small_config grey_pixels true sample_sim = inr s'
    /\ forall x y,
         In (x, y) (scat_offsets s')
         <-> (0 <= y < 4
              /\ Qltb x 4 = true
              /\ exists col, In col (particles_x s')
                             /\ col !! Z.to_nat y = Some x).
Proof.
  set (s' := match animate small_config grey_pixels true sample_sim with
             | inr t => t
             | inl _ => sample_sim
             end).
  assert (animate small_config grey_pixels true sample_sim = inr s') as Ha
    by (vm_compute; reflexivity).
  exists s'. split; [exact Ha |].
  exact (emitted_points_are_positions_inside_canvas small_config grey_pixels
           true sample_sim s' Ha).
Defined.

Lemma default_texture_fits_eight_bits_witness :
  Forall (Forall (fun p => 1 <= p <= 255))
         (default_texture (num := Q_num pade_exp circle_sin circle_cos)
                          small_config).
Proof.
  apply (default_texture_fits_eight_bits pade_exp circle_sin circle_cos
           small_config circle_sin_range circle_cos_range).
Defined.

Lemma slider_moves_keep_other_entries_witness :
  exists sliders,
    ControlPanelMSG sample_params = inr sliders
    /\ fst (moves [(nth 2 panel_sliders (nth 0 panel_sliders
                                           {| label := EmptyString;
                                              key := EmptyString;
                                              vmin := 0%Q; vmax := 0%Q;
                                              valstep := None;
                                              is_process := false |}),
                    5%Q)]
                  (sample_params, 0%nat)) !! "blur_sigma"%string
       = Some 2%Q.
Proof.
  set (dflt := {| label := EmptyString; key := EmptyString;
                  vmin := 0%Q; vmax := 0%Q; valstep := None;
                  is_process := false |}).
  set (sliders := match ControlPanelMSG sample_params with
                  | inr l => l
                  | inl _ => []
                  end).
  assert (ControlPanelMSG sample_params = inr sliders) as Hp
    by (vm_compute; reflexivity).
  exists sliders. split; [exact Hp |].
  destruct (slider_moves_keep_other_entries
              [(nth 2 panel_sliders (nth 0 panel_sliders dflt), 5%Q)]
              sample_params sliders 0%nat Hp) as (_ & Hother & _).
  - constructor; [| constructor]. vm_compute. right. right. left. reflexivity.
  - rewrite Hother; [reflexivity |].
    simpl. intros [H | []]. discriminate H.
Defined.

End MoreWitnesses.

Section LoaderWitnesses.
#[local] Existing Instance Q_sample.
#[local] Existing Instance sample_extern.

Lemma raw_field_in_unit_interval_witness :
  exists raw,
    load_image_data small_config EmptyString = inr raw
    /\ in_range 0 1 raw.
Proof.
  set (raw := match load_image_data small_config EmptyString with
              | inr r => r
              | inl _ => []
              end).
  assert (load_image_data small_config EmptyString = inr raw) as Hl
    by reflexivity.
  exists raw. split; [exact Hl |].
  exact (raw_field_in_unit_interval pade_exp taylor_sin taylor_cos
           small_config EmptyString raw Hl).
Defined.


Lemma selected_image_buffer_has_canvas_shape_witness :
  exists w',
    select_image small_config "photo.png" sample_world = inr w'
    /\ square 4 (pixels w')
    /\ img_obj_data w' = pixels w'.
Proof.
  assert (exists w', select_image small_config "photo.png" sample_world
                     = inr w') as [w' Hs] by (eexists; reflexivity).
  destruct (selected_image_buffer_has_canvas_shape small_config
              sample_extern_resize "photo.png" sample_world w')
    as (_ & Hsq & Himg).
  - discriminate.
  - exact Hs.
  - exists w'. split; [exact Hs |]. split; [exact Hsq | exact Himg].
Defined.

End LoaderWitnesses.

Section FloatWitnesses.

Lemma constant_image_draws_nothing_witness :
  run (num := float_num (fun x => x) (fun x => x) (fun x => x))
      (default_config (num := float_num (fun x => x) (fun x => x)
                                        (fun x => x)))
      (apply_image_effects
         (num := float_num (fun x => x) (fun x => x) (fun x => x))
         (contrast_params
            (num := float_num (fun x => x) (fun x => x) (fun x => x))
            9%float 0.5%float)
         (uniform_field 512 0.5%float))
      true 30
      {| frame_count := 0; particles_x := []; scat_offsets := [] |}
  = inr {| frame_count := 30; particles_x := []; scat_offsets := [] |}.
Proof.
  apply (constant_image_draws_nothing (fun x => x) (fun x => x) (fun x => x)
           default_config 9%float 0.5%float 0.5%float true 30%nat
           {| frame_count := 0; particles_x := []; scat_offsets := [] |}).
  - reflexivity.
  - discriminate.
  - vm_compute. reflexivity.
  - vm_compute. discriminate.
  - reflexivity.
  - reflexivity.
Defined.

End FloatWitnesses.
